(** * GWP-ASan guarded page allocator: the POSIX platform backend

    Shallow embedding of
    [components/gwp_asan/client/guarded_page_allocator_posix.cc]
    ([MapRegion], [UnmapRegion], [MarkPageReadWrite], [MarkPageInaccessible])
    over a page-granular model of the virtual-memory calls the file makes
    ([mmap], [munmap], [mprotect]), followed by the slot pool that sits on
    top of it.

    The three calls belong to the operating system, not to the allocator;
    they are modelled after their manual pages.  A call fails for the
    reasons the manual ties to its arguments and to the address space (a
    misaligned address, a zero length, a range that is not mapped or that
    leaves the user address space, a new mapping below the lowest address
    the process may map, no room at the place the kernel picked);
    transient shortage of kernel resources is not modelled.  The page size
    and the placement of new mappings are left to the kernel ([Kernel]), and
    every result below holds for each choice of them. *)

From stdpp Require Import gmap list strings.

Local Open Scope Z_scope.

(* ===================================================================== *)
(** * 1. The address space                                                *)
(* ===================================================================== *)

(** ** <sys/mman.h> constants (Linux values) *)

Definition PROT_NONE : Z := 0.
Definition PROT_READ : Z := 1.
Definition PROT_WRITE : Z := 2.

Definition MAP_SHARED : Z := 1.
Definition MAP_PRIVATE : Z := 2.
Definition MAP_FIXED : Z := 16.
Definition MAP_ANONYMOUS : Z := 32.

(** [void*] is a 64-bit word; [MAP_FAILED] is [(void* )-1]. *)
Definition nullptr : Z := 0.
Definition MAP_FAILED : Z := 2 ^ 64 - 1.

(** End of the user address space (x86-64 Linux: 0x7ffffffff000, one
    4 KiB page short of 2^47). *)
Definition TASK_SIZE : Z := 2 ^ 47 - 4096.

(** [flags & f] is non-zero. *)
Definition has_flag (f flags : Z) : bool := negb (Z.land flags f =? 0).

Definition readable (prot : Z) : bool := has_flag PROT_READ prot.
Definition writable (prot : Z) : bool := has_flag PROT_WRITE prot.

(** ** Pages

    A mapped page carries its protection bits and its bytes; an offset
    that is absent from [pg_data] reads as zero, so a page that was just
    mapped anonymously is [fresh_page]. *)

Record page : Type := Page { pg_prot : Z; pg_data : gmap Z Byte.byte }.

Definition fresh_page (prot : Z) : page := Page prot ∅.
Definition with_prot (prot : Z) (pg : page) : page := Page prot (pg_data pg).

(** The address space: page number to mapped page; an absent page number
    is unmapped. *)
Abbreviation vm := (gmap Z page).

(** What the kernel is free to choose: the page size (a power of two, at
    least 2), the lowest address at which the process may create a mapping
    (the sysctl vm.mmap_min_addr: 4096 where the kernel's default is kept,
    65536 on most distributions) and where a mapping without [MAP_FIXED] is
    placed ([get_unmapped_area m hint len]).  The placement is validated by
    [mmap], so every function of this type is a legal policy. *)
Class Kernel : Type := {
  PAGE_SHIFT : positive;
  mmap_min_addr : Z;
  get_unmapped_area : vm → Z → Z → Z
}.

Section AddressSpace.
Context {K : Kernel}.

Definition PAGE_SIZE : Z := 2 ^ Z.pos PAGE_SHIFT.

Definition page_of (a : Z) : Z := a / PAGE_SIZE.
Definition page_aligned (a : Z) : bool := a mod PAGE_SIZE =? 0.

(** Number of pages a length of [len] bytes touches (rounded up). *)
Definition pages_of (len : Z) : Z := (len + PAGE_SIZE - 1) / PAGE_SIZE.

(** [n] pages from address [a] lie in the user address space. *)
Definition in_user (a n : Z) : bool :=
  (0 <=? a) && (a + n * PAGE_SIZE <=? TASK_SIZE).

Definition page_range (a n : Z) : list Z := seqZ (page_of a) n.

Definition update_pages (f : option page → option page) (ks : list Z) (m : vm) : vm :=
  foldr (partial_alter f) m ks.

Definition range_mapped (m : vm) (a n : Z) : bool :=
  forallb (λ i, bool_decide (is_Some (m !! i))) (page_range a n).

Definition range_free (m : vm) (a n : Z) : bool :=
  forallb (λ i, bool_decide (m !! i = None)) (page_range a n).

(** A [MAP_FIXED] mapping of [n] pages at [a] is permitted: [a] is not
    below [mmap_min_addr].  A process whose address space already holds
    the whole range is one that was allowed to map there (it has the
    capability the check asks for), so replacing such a range is permitted
    too. *)
Definition may_map_fixed (m : vm) (a n : Z) : bool :=
  (mmap_min_addr <=? a) || range_mapped m a n.

(** ** mmap

    Only anonymous mappings are modelled ([fd] and [offset] are then
    ignored, as on Linux).  Failures, all reported as [MAP_FAILED] with the
    address space untouched:
    - EINVAL: zero length, neither or both of [MAP_PRIVATE]/[MAP_SHARED],
      a misaligned [MAP_FIXED] address;
    - ENOMEM: the range leaves the user address space, or no free range
      was found for a mapping without [MAP_FIXED];
    - EPERM: a [MAP_FIXED] address below [mmap_min_addr]
      ([may_map_fixed]);
    - a file-backed request (no [MAP_ANONYMOUS]).
    A [MAP_FIXED] mapping replaces whatever was mapped in the range. *)
Definition mmap (m : vm) (addr len prot flags fd offset : Z) : Z * vm :=
  let n := pages_of len in
  if bool_decide (len ≤ 0) then (MAP_FAILED, m)
  else if negb (has_flag MAP_ANONYMOUS flags) then (MAP_FAILED, m)
  else if eqb (has_flag MAP_PRIVATE flags) (has_flag MAP_SHARED flags) then (MAP_FAILED, m)
  else if has_flag MAP_FIXED flags then
    if page_aligned addr && in_user addr n && may_map_fixed m addr n
    then (addr, update_pages (λ _, Some (fresh_page prot)) (page_range addr n) m)
    else (MAP_FAILED, m)
  else
    let a := get_unmapped_area m addr len in
    if page_aligned a && (Z.max PAGE_SIZE mmap_min_addr <=? a) && in_user a n
       && range_free m a n
    then (a, update_pages (λ _, Some (fresh_page prot)) (page_range a n) m)
    else (MAP_FAILED, m).

(** ** mprotect

    Returns 0 on success and -1 on failure: EINVAL for a misaligned
    address, ENOMEM when part of the range is not mapped.  A zero length
    succeeds and changes nothing.  Page contents are kept. *)
Definition mprotect (m : vm) (addr len prot : Z) : Z * vm :=
  let n := pages_of len in
  if negb (page_aligned addr) then (-1, m)
  else if bool_decide (len < 0) then (-1, m)
  else if range_mapped m addr n
  then (0, update_pages (fmap (with_prot prot)) (page_range addr n) m)
  else (-1, m).

(** ** munmap

    Returns 0 on success and -1 (EINVAL) for a misaligned address, a zero
    length or a range outside the user address space.  Unmapping a range
    that holds no mapping is not an error. *)
Definition munmap (m : vm) (addr len : Z) : Z * vm :=
  let n := pages_of len in
  if page_aligned addr && bool_decide (0 < len) && in_user addr n
  then (0, update_pages (λ _, None) (page_range addr n) m)
  else (-1, m).

(** ** Memory accesses

    [None] is the hardware fault (SIGSEGV) of an access to an address that
    is unmapped or mapped without the required permission. *)
Definition prot_at (m : vm) (a : Z) : option Z := pg_prot <$> m !! page_of a.

Definition load (m : vm) (a : Z) : option Byte.byte :=
  pg ← m !! page_of a;
  if readable (pg_prot pg)
  then Some (default Byte.x00 (pg_data pg !! (a mod PAGE_SIZE)))
  else None.

Definition store (m : vm) (a : Z) (v : Byte.byte) : option vm :=
  pg ← m !! page_of a;
  if writable (pg_prot pg)
  then Some (<[page_of a := Page (pg_prot pg) (<[a mod PAGE_SIZE := v]> (pg_data pg))]> m)
  else None.

(** No access at all: the page is mapped [PROT_NONE] and both kinds of
    access fault. *)
Definition no_access (m : vm) (a : Z) : Prop :=
  prot_at m a = Some PROT_NONE ∧ load m a = None ∧ ∀ v, store m a v = None.

(** Readable and writable: loads return a byte and stores go through. *)
Definition read_write (m : vm) (a : Z) : Prop :=
  prot_at m a = Some (Z.lor PROT_READ PROT_WRITE) ∧
  is_Some (load m a) ∧ ∀ v, is_Some (store m a v).

End AddressSpace.

(* ===================================================================== *)
(** * 2. guarded_page_allocator_posix.cc                                  *)
(* ===================================================================== *)

(** The result of running a member function: it returns a value and leaves
    an address space, or a fatal check ends the process. *)
Inductive Outcome (A : Type) : Type :=
| Returned (a : A) (m : vm)
| Fatal (msg : string).
Arguments Returned {A} a m.
Arguments Fatal {A} msg.

(** The fields of [state_] the file reads. *)
Record AllocatorState : Type := {
  page_size : Z;
  pages_base_addr : Z
}.

(** Declared outside this file: [RegionSize()] (guarded_page_allocator.h)
    and whether [DCHECK]s are compiled in (a build flag of base/logging.h). *)
Class Decls : Type := {
  RegionSize : AllocatorState → Z;
  DCHECK_IS_ON : bool
}.

(** base/logging.h: [CHECK] and [PCHECK] are fatal in every build,
    [DCHECK_EQ] only where [DCHECK_IS_ON]. *)
Definition CHECK (cond : bool) (msg : string) (m : vm) : Outcome unit :=
  if cond then Returned tt m else Fatal msg.

Definition PCHECK (cond : bool) (msg : string) (m : vm) : Outcome unit :=
  CHECK cond msg m.

Definition DCHECK_EQ `{Decls} (a b : Z) (msg : string) (m : vm) : Outcome unit :=
  if DCHECK_IS_ON then CHECK (a =? b) msg m else Returned tt m.

Definition obind {A B} (o : Outcome A) (k : A → vm → Outcome B) : Outcome B :=
  match o with
  | Returned a m => k a m
  | Fatal msg => Fatal msg
  end.

Section Posix.
Context {K : Kernel} {D : Decls}.

Definition MapRegion (st : AllocatorState) (m : vm) : Outcome Z :=
  let '(ptr, m') := mmap m nullptr (RegionSize st) PROT_NONE
                      (Z.lor MAP_ANONYMOUS MAP_PRIVATE) (-1) 0 in
  Returned ptr m'.

Definition UnmapRegion (st : AllocatorState) (m : vm) : Outcome unit :=
  obind (CHECK (negb (pages_base_addr st =? 0)) "state_.pages_base_addr" m) (λ _ m,
    let '(err, m') := munmap m (pages_base_addr st) (RegionSize st) in
    DCHECK_EQ err 0 "err == 0" m').

Definition MarkPageReadWrite (st : AllocatorState) (ptr : Z) (m : vm) : Outcome unit :=
  let '(err, m') := mprotect m ptr (page_size st) (Z.lor PROT_READ PROT_WRITE) in
  PCHECK (err =? 0) "mprotect" m'.

Definition MarkPageInaccessible (st : AllocatorState) (ptr : Z) (m : vm) : Outcome unit :=
  let '(err, m') := mmap m ptr (page_size st) PROT_NONE
                      (Z.lor (Z.lor MAP_FIXED MAP_ANONYMOUS) MAP_PRIVATE) 0 0 in
  PCHECK (err =? ptr) "mmap" m'.

(** The address spaces the two page calls leave when the system call
    succeeds: every page of the range replaced by a fresh [PROT_NONE] page,
    and every page of the range given read-write protection. *)
Definition remap_none (st : AllocatorState) (p : Z) (m : vm) : vm :=
  update_pages (λ _, Some (fresh_page PROT_NONE))
    (page_range p (pages_of (page_size st))) m.

Definition reprotect_rw (st : AllocatorState) (p : Z) (m : vm) : vm :=
  update_pages (fmap (with_prot (Z.lor PROT_READ PROT_WRITE)))
    (page_range p (pages_of (page_size st))) m.

End Posix.

(* ===================================================================== *)
(** * 3. The slot pool                                                    *)
(* ===================================================================== *)

(** Modelled from the spec: the per-slot state machine of the allocator
    core (section 3, "Slot"); guarded_page_allocator.cc is not among the
    sources. *)
Inductive SlotState : Type := Free | Allocated | Quarantined.

(** Modelled from the spec: one metadata record per slot (section 3). *)
Record Slot : Type := {
  state : SlotState;
  requested_size : Z;
  placement_offset : Z;
  alloc_trace_id : Z;
  dealloc_trace_id : Z;
  alloc_thread_id : Z;
  dealloc_thread_id : Z;
  alloc_time : Z;
  dealloc_time : Z
}.

(** Modelled from the spec: what the caller of [Allocate] supplies besides
    the size and the alignment (section 4.4, the diagnostic fields written
    at allocation time). *)
Record CallerInfo : Type := {
  trace_id : Z;
  thread_id : Z;
  time : Z
}.

(** Modelled from the spec: the pool (sections 2 and 3): the region
    ([pool_state]), the metadata table indexed by slot, the free-slot
    selector's collection of free indices and the state of the injected
    pseudo-random generator. *)
Record Pool : Type := {
  pool_state : AllocatorState;
  slot_count : nat;
  slots : list Slot;
  free_slots : list nat;
  rng : Z
}.

(** Modelled from the spec: the pseudo-random source injected into the
    selector and the placement decision (section 9); [rand_next] steps the
    generator, whose state is also its output. *)
Class Random : Type := { rand_next : Z → Z }.

(** Modelled from the spec: the region layout of section 4.1, three pages
    per slot (guard, accessible, guard), as the [RegionSize()] of a pool of
    [n] slots. *)
Definition pool_decls (n : nat) (dcheck : bool) : Decls :=
  {| RegionSize := λ st, Z.of_nat n * 3 * page_size st; DCHECK_IS_ON := dcheck |}.

(** Modelled from the spec: the record of a slot that has not been used
    yet (section 4.1, "all slots start Free"). *)
Definition free_slot : Slot :=
  {| state := Free; requested_size := 0; placement_offset := 0;
     alloc_trace_id := 0; dealloc_trace_id := 0;
     alloc_thread_id := 0; dealloc_thread_id := 0;
     alloc_time := 0; dealloc_time := 0 |}.

(** Modelled from the spec: the address of slot [i]'s accessible page, the
    middle page of the slot's three (section 3, [base_address]). *)
Definition SlotAddress (p : Pool) (i : nat) : Z :=
  pages_base_addr (pool_state p) + (3 * Z.of_nat i + 1) * page_size (pool_state p).

(** Modelled from the spec: a request is served only when the size fits the
    page and the alignment can be met inside a page (section 4.4): the
    alignment is positive, no wider than the page and divides the page
    size. *)
Definition request_ok (ps size align : Z) : bool :=
  (0 <=? size) && (size <=? ps) && (0 <? align) && (align <=? ps) && (ps mod align =? 0).

(** Modelled from the spec: left- or right-aligned placement inside the
    page, a zero-byte request being placed as one byte (section 4.4). *)
Definition PlacementOffset (ps size align r : Z) : Z :=
  if Z.testbit r 32 then 0
  else let sz := Z.max size 1 in (ps - sz) / align * align.

Section Pool.
Context {K : Kernel} {R : Random}.

(** Modelled from the spec: [Initialize(page_size, slot_count)] of section
    4.1: reserve the region through the backend, fail with
    RegionUnavailable ([None]) when the reservation fails, otherwise all
    slots start [Free]. *)
Definition Initialize (ps : Z) (n : nat) (seed : Z) (m : vm) : Outcome (option Pool) :=
  let st := {| page_size := ps; pages_base_addr := nullptr |} in
  obind (MapRegion (D := pool_decls n false) st m) (λ region m',
    if region =? MAP_FAILED then Returned None m'
    else Returned (Some {| pool_state := {| page_size := ps; pages_base_addr := region |};
                           slot_count := n;
                           slots := replicate n free_slot;
                           free_slots := seq 0 n;
                           rng := seed |}) m').

(** Modelled from the spec: [PickFree] of section 4.2: nothing when the
    free collection is empty, otherwise the index at a pseudo-random
    position, which leaves the collection. *)
Definition PickFree (p : Pool) : option (nat * Pool) :=
  match free_slots p with
  | [] => None
  | _ :: _ =>
    let r := rand_next (rng p) in
    let k := Z.to_nat (r mod Z.of_nat (length (free_slots p))) in
    match free_slots p !! k with
    | None => None
    | Some i =>
      Some (i, {| pool_state := pool_state p; slot_count := slot_count p;
                  slots := slots p; free_slots := delete k (free_slots p);
                  rng := r |})
    end
  end.

(** Modelled from the spec: [MarkAccessible(index)] of section 4.1, a thin
    call into the backend. *)
Definition MarkAccessible (p : Pool) (i : nat) (m : vm) : Outcome unit :=
  MarkPageReadWrite (pool_state p) (SlotAddress p i) m.

(** Modelled from the spec: [Allocate(size, alignment)] of section 4.4.
    [None] is the "no slot" answer, given for an unsupported request and
    for an exhausted pool. *)
Definition Allocate (p : Pool) (size align : Z) (c : CallerInfo) (m : vm)
  : Outcome (option Z * Pool) :=
  let ps := page_size (pool_state p) in
  if negb (request_ok ps size align) then Returned (None, p) m
  else match PickFree p with
  | None => Returned (None, p) m
  | Some (i, p1) =>
    let r := rand_next (rng p1) in
    let off := PlacementOffset ps size align r in
    obind (MarkAccessible p1 i m) (λ _ m',
      let old := default free_slot (slots p1 !! i) in
      let s := {| state := Allocated; requested_size := size;
                  placement_offset := off;
                  alloc_trace_id := trace_id c;
                  dealloc_trace_id := dealloc_trace_id old;
                  alloc_thread_id := thread_id c;
                  dealloc_thread_id := dealloc_thread_id old;
                  alloc_time := time c;
                  dealloc_time := dealloc_time old |} in
      Returned (Some (SlotAddress p1 i + off),
                {| pool_state := pool_state p1; slot_count := slot_count p1;
                   slots := <[i := s]> (slots p1); free_slots := free_slots p1;
                   rng := r |}) m')
  end.

(** A request as the sampling layer issues it. *)
Record Request : Type := {
  req_size : Z;
  req_align : Z;
  req_caller : CallerInfo
}.

(** Consecutive [Allocate] calls with no [Deallocate] in between; the
    answers are collected in call order. *)
Fixpoint AllocateAll (p : Pool) (rs : list Request) (m : vm)
  : Outcome (list (option Z) * Pool) :=
  match rs with
  | [] => Returned ([], p) m
  | r :: rs' =>
    obind (Allocate p (req_size r) (req_align r) (req_caller r) m) (λ '(a, p1) m1,
      obind (AllocateAll p1 rs' m1) (λ '(l, p2) m2, Returned (a :: l, p2) m2))
  end.

(** What [Allocate] relies on between calls: the pool's page size is the
    kernel's, the region base is page-aligned, every slot's page is mapped
    and the free collection holds slot indices only. *)
Definition pool_ok (p : Pool) (m : vm) : Prop :=
  page_size (pool_state p) = PAGE_SIZE ∧
  page_aligned (pages_base_addr (pool_state p)) = true ∧
  (∀ i, (i < slot_count p)%nat → is_Some (m !! page_of (SlotAddress p i))) ∧
  (∀ i, i ∈ free_slots p → (i < slot_count p)%nat).

Definition valid_request (ps : Z) (r : Request) : Prop :=
  request_ok ps (req_size r) (req_align r) = true.

End Pool.

(* ===================================================================== *)
(** * 4. Concrete instances                                               *)
(* ===================================================================== *)

(** A kernel with 4 KiB pages that places a new mapping one page above the
    highest mapped page. *)
Definition top_page (m : vm) : Z := map_fold (λ k _ acc, Z.max k acc) 0 m.

Definition linux_4k : Kernel :=
  {| PAGE_SHIFT := 12; mmap_min_addr := 4096;
     get_unmapped_area := λ m _ _, (top_page m + 2) * 4096 |}.

(** A generator: a linear congruential step. *)
Definition lcg : Random :=
  {| rand_next := λ s, (s * 6364136223846793005 + 1442695040888963407) mod 2 ^ 64 |}.

(** [RegionSize()] as the allocator computes it for [total_pages] slots:
    one guard page more than two pages per slot. *)
Definition decls_16 : Decls :=
  {| RegionSize := λ st, (2 * 16 + 1) * page_size st; DCHECK_IS_ON := true |}.

Definition state_4k (base : Z) : AllocatorState :=
  {| page_size := 4096; pages_base_addr := base |}.

(** The address space after [MapRegion] on an empty one: 33 pages from
    address 8192, the region of [decls_16]. *)
Definition region_vm : vm :=
  match MapRegion (K := linux_4k) (D := decls_16) (state_4k 0) ∅ with
  | Returned _ m => m
  | Fatal _ => ∅
  end.

(** [region_vm] with the page at 12288 made read-write, and the same with
    the byte 0x41 stored at 12300. *)
Definition rw_vm : vm :=
  match MarkPageReadWrite (K := linux_4k) (state_4k 8192) 12288 region_vm with
  | Returned _ m => m
  | Fatal _ => ∅
  end.

Definition dirty_vm : vm :=
  default ∅ (store (K := linux_4k) rw_vm 12300 Byte.x41).

Definition request_8 (size : Z) : Request :=
  {| req_size := size; req_align := 8;
     req_caller := {| trace_id := 1; thread_id := 2; time := 3 |} |}.

(** A run of byte stores, as the user of an accessible page performs
    them; [None] as soon as one of them faults. *)
Fixpoint store_all {K : Kernel} (m : vm) (l : list (Z * Byte.byte)) : option vm :=
  match l with
  | [] => Some m
  | (a, v) :: l' => m' ← store m a v; store_all m' l'
  end.

(** [region_vm] after a second [MapRegion], and the base of that second
    region. *)
Definition two_regions : Z * vm :=
  match MapRegion (K := linux_4k) (D := decls_16) (state_4k 8192) region_vm with
  | Returned r m => (r, m)
  | Fatal _ => (0, ∅)
  end.

(* ===================================================================== *)
(** * 5. The address space: lemmas                                        *)
(* ===================================================================== *)

Section AddressSpaceFacts.
Context {K : Kernel}.

Lemma PAGE_SIZE_pos : 0 < PAGE_SIZE.
Proof. unfold PAGE_SIZE. apply Z.pow_pos_nonneg; lia. Qed.

Lemma PAGE_SIZE_even : ∃ h, PAGE_SIZE = 2 * h.
Proof.
  exists (2 ^ (Z.pos PAGE_SHIFT - 1)). unfold PAGE_SIZE.
  rewrite <- Z.pow_succ_r by lia. f_equal. lia.
Qed.

Lemma page_aligned_spec a : page_aligned a = true ↔ a = page_of a * PAGE_SIZE.
Proof.
  unfold page_aligned, page_of. pose proof PAGE_SIZE_pos as Hp.
  assert (PAGE_SIZE ≠ 0) as Hnz by lia.
  pose proof (Z.div_mod a PAGE_SIZE Hnz) as Hdm.
  rewrite Z.eqb_eq. lia.
Qed.

Lemma page_of_bounds a : page_of a * PAGE_SIZE ≤ a < page_of a * PAGE_SIZE + PAGE_SIZE.
Proof.
  unfold page_of. pose proof PAGE_SIZE_pos as Hp.
  assert (PAGE_SIZE ≠ 0) as Hnz by lia.
  pose proof (Z.div_mod a PAGE_SIZE Hnz) as Hdm.
  pose proof (Z.mod_pos_bound a PAGE_SIZE Hp). lia.
Qed.

Lemma page_of_unique a q : q * PAGE_SIZE ≤ a < q * PAGE_SIZE + PAGE_SIZE → page_of a = q.
Proof.
  intros H. pose proof (page_of_bounds a) as Hb. pose proof PAGE_SIZE_pos as Hp. nia.
Qed.

Lemma pages_of_bounds len :
  (pages_of len - 1) * PAGE_SIZE < len ≤ pages_of len * PAGE_SIZE.
Proof.
  unfold pages_of. pose proof PAGE_SIZE_pos as Hp.
  assert (PAGE_SIZE ≠ 0) as Hnz by lia.
  pose proof (Z.div_mod (len + PAGE_SIZE - 1) PAGE_SIZE Hnz) as Hdm.
  pose proof (Z.mod_pos_bound (len + PAGE_SIZE - 1) PAGE_SIZE Hp). lia.
Qed.

Lemma pages_of_PAGE_SIZE : pages_of PAGE_SIZE = 1.
Proof. pose proof (pages_of_bounds PAGE_SIZE). pose proof PAGE_SIZE_pos. nia. Qed.

Lemma pages_of_mul n : pages_of (n * PAGE_SIZE) = n.
Proof. pose proof (pages_of_bounds (n * PAGE_SIZE)). pose proof PAGE_SIZE_pos. nia. Qed.

Lemma pages_of_pos len : 0 < len → 0 < pages_of len.
Proof. intros H. pose proof (pages_of_bounds len). pose proof PAGE_SIZE_pos. nia. Qed.

Lemma elem_of_page_range a n i : i ∈ page_range a n ↔ page_of a ≤ i < page_of a + n.
Proof. unfold page_range. apply elem_of_seqZ. Qed.

(** An address of the byte range [p, p + len) lies on a page of the page
    range the calls operate on. *)
Lemma page_range_covers p len a :
  page_aligned p = true → p ≤ a < p + len → page_of a ∈ page_range p (pages_of len).
Proof.
  intros Hal Ha. apply page_aligned_spec in Hal. apply elem_of_page_range.
  pose proof (page_of_bounds a). pose proof (pages_of_bounds len).
  pose proof PAGE_SIZE_pos. nia.
Qed.

(** When the length is a whole number of pages, the page range holds no
    address outside the byte range. *)
Lemma page_range_exact p n a :
  page_aligned p = true → page_of a ∈ page_range p n → p ≤ a < p + n * PAGE_SIZE.
Proof.
  intros Hal Hin. apply page_aligned_spec in Hal. apply elem_of_page_range in Hin.
  pose proof (page_of_bounds a). pose proof PAGE_SIZE_pos. nia.
Qed.

Lemma lookup_update_pages f ks (m : vm) i :
  NoDup ks → update_pages f ks m !! i = if decide (i ∈ ks) then f (m !! i) else m !! i.
Proof.
  unfold update_pages. induction 1 as [|k ks Hk Hnd IH]; cbn [foldr].
  - destruct (decide (i ∈ [])) as [Hin|]; [by apply elem_of_nil in Hin | done].
  - destruct (decide (i ∈ k :: ks)) as [Hin|Hnin].
    + apply elem_of_cons in Hin as [->|Hin].
      * rewrite lookup_partial_alter_eq, IH. by rewrite decide_False.
      * assert (k ≠ i) by (intros ->; done).
        rewrite lookup_partial_alter_ne, IH by done. by rewrite decide_True.
    + apply not_elem_of_cons in Hnin as [? ?].
      rewrite lookup_partial_alter_ne, IH by done. by rewrite decide_False.
Qed.

Lemma lookup_update_range f p n (m : vm) i :
  update_pages f (page_range p n) m !! i =
    if decide (i ∈ page_range p n) then f (m !! i) else m !! i.
Proof. apply lookup_update_pages, NoDup_seqZ. Qed.

Lemma range_mapped_spec (m : vm) p n :
  range_mapped m p n = true ↔ ∀ i, i ∈ page_range p n → is_Some (m !! i).
Proof.
  unfold range_mapped. rewrite forallb_forall. split; intros H i Hi.
  - apply list_elem_of_In, H, bool_decide_eq_true in Hi. done.
  - apply bool_decide_eq_true, H, list_elem_of_In, Hi.
Qed.

Lemma range_free_spec (m : vm) p n :
  range_free m p n = true ↔ ∀ i, i ∈ page_range p n → m !! i = None.
Proof.
  unfold range_free. rewrite forallb_forall. split; intros H i Hi.
  - apply list_elem_of_In, H, bool_decide_eq_true in Hi. done.
  - apply bool_decide_eq_true, H, list_elem_of_In, Hi.
Qed.

(** [MAP_FAILED] is odd, hence never the address of a page. *)
Lemma MAP_FAILED_unaligned : page_aligned MAP_FAILED = false.
Proof.
  apply not_true_is_false. intros Hal. apply page_aligned_spec in Hal.
  destruct PAGE_SIZE_even as [h Hh]. rewrite Hh in Hal.
  unfold MAP_FAILED in Hal. revert Hal. generalize (page_of (2 ^ 64 - 1)).
  intros q Hq. assert (2 ^ 64 - 1 = 2 * (q * h)) as Hpar by lia.
  revert Hpar. generalize (q * h). intros. lia.
Qed.

Lemma page_aligned_not_MAP_FAILED p : page_aligned p = true → p ≠ MAP_FAILED.
Proof. intros Hal ->. by rewrite MAP_FAILED_unaligned in Hal. Qed.

(** ** The three calls, by cases *)

Lemma mmap_fixed_anon_private (m : vm) addr len prot fd off :
  mmap m addr len prot (Z.lor (Z.lor MAP_FIXED MAP_ANONYMOUS) MAP_PRIVATE) fd off =
    if bool_decide (len ≤ 0) then (MAP_FAILED, m)
    else if page_aligned addr && in_user addr (pages_of len)
            && may_map_fixed m addr (pages_of len)
    then (addr, update_pages (λ _, Some (fresh_page prot)) (page_range addr (pages_of len)) m)
    else (MAP_FAILED, m).
Proof. unfold mmap. by case_bool_decide. Qed.

Lemma mmap_anon_private (m : vm) addr len prot fd off :
  mmap m addr len prot (Z.lor MAP_ANONYMOUS MAP_PRIVATE) fd off =
    if bool_decide (len ≤ 0) then (MAP_FAILED, m)
    else let a := get_unmapped_area m addr len in
      if page_aligned a && (Z.max PAGE_SIZE mmap_min_addr <=? a)
         && in_user a (pages_of len) && range_free m a (pages_of len)
      then (a, update_pages (λ _, Some (fresh_page prot)) (page_range a (pages_of len)) m)
      else (MAP_FAILED, m).
Proof. unfold mmap. by case_bool_decide. Qed.

End AddressSpaceFacts.

(* ===================================================================== *)
(** * 6. guarded_page_allocator_posix.cc: properties                      *)
(* ===================================================================== *)

Section PosixFacts.
Context {K : Kernel}.

Lemma no_access_lookup (m : vm) a pg :
  m !! page_of a = Some pg → pg_prot pg = PROT_NONE → no_access m a.
Proof.
  intros Hm Hp. unfold no_access, prot_at, load, store. rewrite Hm. simpl.
  rewrite Hp. done.
Qed.

Lemma read_write_lookup (m : vm) a pg :
  m !! page_of a = Some pg → pg_prot pg = Z.lor PROT_READ PROT_WRITE → read_write m a.
Proof.
  intros Hm Hp. unfold read_write, prot_at, load, store. rewrite Hm. simpl.
  rewrite Hp. split_and!; [done | by eexists | intros; by eexists].
Qed.

Lemma no_access_same_page (m m' : vm) a :
  m' !! page_of a = m !! page_of a → no_access m a → no_access m' a.
Proof.
  intros Hm (Hp & Hl & Hs). unfold prot_at in Hp.
  destruct (m !! page_of a) as [pg|] eqn:E; [|done]. simpl in Hp.
  apply (no_access_lookup _ _ pg); congruence.
Qed.

Lemma MarkPageInaccessible_inv st p m m' :
  MarkPageInaccessible st p m = Returned tt m' →
  (page_aligned p = true ∧ 0 < page_size st ∧
   in_user p (pages_of (page_size st)) = true ∧ m' = remap_none st p m)
  ∨ (p = MAP_FAILED ∧ m' = m).
Proof.
  unfold MarkPageInaccessible. rewrite mmap_fixed_anon_private.
  case_bool_decide as Hlen; [|destruct (_ && may_map_fixed _ _ _) eqn:Hok];
    unfold PCHECK, CHECK; (destruct (_ =? p) eqn:Heq; [|done]); intros [= <-].
  - right. apply Z.eqb_eq in Heq. done.
  - left. apply andb_true_iff in Hok as [Hok _].
    apply andb_true_iff in Hok as [? ?]. split_and!; [done | lia | done | done].
  - right. apply Z.eqb_eq in Heq. done.
Qed.

Lemma MarkPageInaccessible_inv_may st p m m' :
  MarkPageInaccessible st p m = Returned tt m' → p ≠ MAP_FAILED →
  may_map_fixed m p (pages_of (page_size st)) = true.
Proof.
  unfold MarkPageInaccessible. rewrite mmap_fixed_anon_private.
  case_bool_decide as Hlen; [|destruct (_ && may_map_fixed _ _ _) eqn:Hok];
    unfold PCHECK, CHECK; (destruct (_ =? p) eqn:Heq; [|done]); intros _ Hp.
  - apply Z.eqb_eq in Heq. done.
  - by apply andb_true_iff in Hok as [_ ?].
  - apply Z.eqb_eq in Heq. done.
Qed.

Lemma MarkPageInaccessible_ok st p m :
  page_aligned p = true → 0 < page_size st →
  in_user p (pages_of (page_size st)) = true →
  may_map_fixed m p (pages_of (page_size st)) = true →
  MarkPageInaccessible st p m = Returned tt (remap_none st p m).
Proof.
  intros Hal Hlen Hu Hmay. unfold MarkPageInaccessible.
  rewrite mmap_fixed_anon_private, bool_decide_eq_false_2 by lia.
  rewrite Hal, Hu, Hmay. simpl. unfold PCHECK, CHECK. by rewrite Z.eqb_refl.
Qed.

Lemma may_map_fixed_mapped (m : vm) p n :
  range_mapped m p n = true → may_map_fixed m p n = true.
Proof. intros Hm. unfold may_map_fixed. rewrite Hm. apply orb_true_r. Qed.

Lemma MarkPageReadWrite_inv st p m m' :
  MarkPageReadWrite st p m = Returned tt m' →
  page_aligned p = true ∧ 0 ≤ page_size st ∧
  range_mapped m p (pages_of (page_size st)) = true ∧ m' = reprotect_rw st p m.
Proof.
  unfold MarkPageReadWrite, mprotect.
  destruct (page_aligned p); simpl; [|done].
  case_bool_decide; simpl; [done|].
  destruct (range_mapped _ _ _); simpl; [|done].
  intros [= <-]. split_and!; [done | lia | done | done].
Qed.

Lemma MarkPageReadWrite_ok st p m :
  page_aligned p = true → 0 ≤ page_size st →
  range_mapped m p (pages_of (page_size st)) = true →
  MarkPageReadWrite st p m = Returned tt (reprotect_rw st p m).
Proof.
  intros Hal Hlen Hm. unfold MarkPageReadWrite, mprotect.
  rewrite Hal, bool_decide_eq_false_2, Hm by lia. done.
Qed.

Lemma in_user_one_page p :
  0 ≤ p → p + PAGE_SIZE ≤ TASK_SIZE → in_user p (pages_of PAGE_SIZE) = true.
Proof.
  intros. unfold in_user. rewrite pages_of_PAGE_SIZE.
  apply andb_true_iff. split; apply Z.leb_le; lia.
Qed.

Lemma range_mapped_one_page (m : vm) p :
  is_Some (m !! page_of p) → range_mapped m p (pages_of PAGE_SIZE) = true.
Proof.
  intros Hm. apply range_mapped_spec. intros i Hi.
  apply elem_of_page_range in Hi. rewrite pages_of_PAGE_SIZE in Hi.
  by replace i with (page_of p) by lia.
Qed.

Lemma remap_none_inside st p (m : vm) a :
  page_aligned p = true → p ≤ a < p + page_size st →
  remap_none st p m !! page_of a = Some (fresh_page PROT_NONE).
Proof.
  intros Hal Ha. unfold remap_none. rewrite lookup_update_range.
  rewrite decide_True; [done|]. by apply page_range_covers.
Qed.

Lemma reprotect_rw_inside st p (m : vm) a :
  page_aligned p = true → p ≤ a < p + page_size st →
  reprotect_rw st p m !! page_of a =
    with_prot (Z.lor PROT_READ PROT_WRITE) <$> m !! page_of a.
Proof.
  intros Hal Ha. unfold reprotect_rw. rewrite lookup_update_range.
  rewrite decide_True; [done|]. by apply page_range_covers.
Qed.

(** Whole pages: a page outside the byte range is not in the page range. *)
Lemma outside_page_range st p a :
  page_aligned p = true → page_size st mod PAGE_SIZE = 0 →
  ¬ (p ≤ a < p + page_size st) →
  page_of a ∉ page_range p (pages_of (page_size st)).
Proof.
  intros Hal Hwhole Hout Hin. apply Hout.
  pose proof PAGE_SIZE_pos as Hp. assert (PAGE_SIZE ≠ 0) as Hnz by lia.
  pose proof (Z.div_mod (page_size st) PAGE_SIZE Hnz) as Hdm.
  rewrite Hwhole, Z.add_0_r in Hdm.
  rewrite Hdm, (Z.mul_comm PAGE_SIZE), pages_of_mul in Hin.
  apply page_range_exact in Hin; [|done]. lia.
Qed.

Lemma remap_none_outside st p (m : vm) a :
  page_aligned p = true → page_size st mod PAGE_SIZE = 0 →
  ¬ (p ≤ a < p + page_size st) →
  remap_none st p m !! page_of a = m !! page_of a.
Proof.
  intros Hal Hwhole Hout. unfold remap_none. rewrite lookup_update_range.
  rewrite decide_False; [done|]. by apply outside_page_range.
Qed.

Lemma reprotect_rw_outside st p (m : vm) a :
  page_aligned p = true → page_size st mod PAGE_SIZE = 0 →
  ¬ (p ≤ a < p + page_size st) →
  reprotect_rw st p m !! page_of a = m !! page_of a.
Proof.
  intros Hal Hwhole Hout. unfold reprotect_rw. rewrite lookup_update_range.
  rewrite decide_False; [done|]. by apply outside_page_range.
Qed.

Lemma range_mapped_remap_none st p (m : vm) :
  range_mapped (remap_none st p m) p (pages_of (page_size st)) = true.
Proof.
  apply range_mapped_spec. intros i Hi. unfold remap_none.
  rewrite lookup_update_range, decide_True by done. by eexists.
Qed.

Lemma may_map_fixed_one_page (m : vm) p :
  is_Some (m !! page_of p) → may_map_fixed m p (pages_of PAGE_SIZE) = true.
Proof. intros Hm. by apply may_map_fixed_mapped, range_mapped_one_page. Qed.

Lemma may_map_fixed_reprotect_rw st p (m : vm) q n :
  may_map_fixed (reprotect_rw st p m) q n = true → may_map_fixed m q n = true.
Proof.
  unfold may_map_fixed. intros Hmay. apply orb_true_iff in Hmay as [Hmin|Hm];
    apply orb_true_iff; [by left | right].
  apply range_mapped_spec. intros i Hi.
  eapply range_mapped_spec in Hm; [|done]. unfold reprotect_rw in Hm.
  rewrite lookup_update_range in Hm. case_decide; [|done].
  by apply fmap_is_Some in Hm.
Qed.

Lemma MapRegion_inv {D : Decls} st m r m' :
  MapRegion st m = Returned r m' →
  (r = MAP_FAILED ∧ m' = m) ∨
  (r = get_unmapped_area m nullptr (RegionSize st) ∧
   0 < RegionSize st ∧ page_aligned r = true ∧ PAGE_SIZE ≤ r ∧
   r + pages_of (RegionSize st) * PAGE_SIZE ≤ TASK_SIZE ∧
   range_free m r (pages_of (RegionSize st)) = true ∧
   m' = update_pages (λ _, Some (fresh_page PROT_NONE))
          (page_range r (pages_of (RegionSize st))) m).
Proof.
  unfold MapRegion. rewrite mmap_anon_private.
  case_bool_decide as Hlen; [intros [= <- <-]; by left|]. cbv zeta.
  destruct (_ && range_free _ _ _) eqn:Hok; intros [= <- <-]; [right | by left].
  apply andb_true_iff in Hok as [Hok Hfree].
  apply andb_true_iff in Hok as [Hok Hu]. apply andb_true_iff in Hok as [Hal Hmin].
  apply Z.leb_le in Hmin.
  unfold in_user in Hu. apply andb_true_iff in Hu as [_ Htop]. apply Z.leb_le in Htop.
  split_and!; [done | lia | done | lia | done..].
Qed.

Lemma MapRegion_mapped {D : Decls} st m r m' a :
  MapRegion st m = Returned r m' → r ≠ MAP_FAILED →
  r ≤ a < r + RegionSize st →
  m !! page_of a = None ∧ m' !! page_of a = Some (fresh_page PROT_NONE).
Proof.
  intros Hmap Hr Ha.
  apply MapRegion_inv in Hmap as [[? _]|(_ & _ & Hal & _ & _ & Hfree & ->)]; [done|].
  pose proof (page_range_covers _ _ _ Hal Ha) as Hin. split.
  - by eapply range_free_spec in Hfree.
  - by rewrite lookup_update_range, decide_True.
Qed.

End PosixFacts.

(* ===================================================================== *)
(** * 7. The slot pool: properties                                        *)
(* ===================================================================== *)

Section PoolFacts.
Context {K : Kernel} {R : Random}.

Lemma page_aligned_add a k :
  page_aligned a = true → page_aligned (a + k * PAGE_SIZE) = true.
Proof.
  intros Hal. unfold page_aligned in *. apply Z.eqb_eq in Hal. apply Z.eqb_eq.
  pose proof PAGE_SIZE_pos. rewrite Z.mod_add by lia. done.
Qed.

Lemma PickFree_nonempty p :
  free_slots p ≠ [] →
  ∃ i p1, PickFree p = Some (i, p1) ∧ i ∈ free_slots p ∧
    pool_state p1 = pool_state p ∧ slot_count p1 = slot_count p ∧
    S (length (free_slots p1)) = length (free_slots p) ∧
    free_slots p1 ⊆ free_slots p.
Proof.
  intros Hne. unfold PickFree.
  destruct (free_slots p) as [|x l] eqn:Hfree; [done|].
  set (k := Z.to_nat (rand_next (rng p) mod Z.of_nat (length (x :: l)))).
  assert (k < length (x :: l))%nat as Hk.
  { subst k. pose proof (Z.mod_pos_bound (rand_next (rng p))
      (Z.of_nat (length (x :: l))) ltac:(simpl; lia)). lia. }
  destruct (lookup_lt_is_Some_2 _ _ Hk) as [i Hi]. rewrite Hi.
  eexists _, _. split_and!; try done; simpl.
  - by eapply list_elem_of_lookup_2.
  - rewrite length_delete by eauto. simpl in *. lia.
  - apply sublist_subseteq, sublist_delete.
Qed.

Lemma Allocate_exhausted p size align c m :
  free_slots p = [] → Allocate p size align c m = Returned (None, p) m.
Proof.
  intros Hfree. unfold Allocate, PickFree. rewrite Hfree.
  by destruct (request_ok _ _ _).
Qed.

Lemma Allocate_free_slot p size align c m :
  pool_ok p m → free_slots p ≠ [] →
  request_ok (page_size (pool_state p)) size align = true →
  ∃ ptr p' m', Allocate p size align c m = Returned (Some ptr, p') m' ∧
    pool_ok p' m' ∧ pool_state p' = pool_state p ∧
    S (length (free_slots p')) = length (free_slots p).
Proof.
  intros (Hps & Hal & Hmapped & Hidx) Hne Hreq. unfold Allocate. rewrite Hreq. simpl.
  destruct (PickFree_nonempty p Hne) as (i & p1 & -> & Hi & Hst & Hcnt & Hlen & Hsub).
  pose proof PAGE_SIZE_pos as Hpos.
  assert (SlotAddress p1 i = SlotAddress p i) as Haddr
    by (unfold SlotAddress; by rewrite Hst).
  assert (page_aligned (SlotAddress p i) = true) as Hsal.
  { unfold SlotAddress. rewrite Hps. by apply page_aligned_add. }
  unfold MarkAccessible. rewrite Hst, Haddr.
  rewrite MarkPageReadWrite_ok; [|done|lia|].
  2:{ rewrite Hps. apply range_mapped_one_page, Hmapped, Hidx, Hi. }
  simpl. eexists _, _, _. split_and!; [done| |done|done].
  split_and!; simpl; [done | done | |].
  - intros j Hj. rewrite Hcnt in Hj. unfold SlotAddress. simpl.
    unfold reprotect_rw. rewrite lookup_update_range.
    case_decide; [apply fmap_is_Some|]; by apply Hmapped.
  - intros j Hj. rewrite Hcnt. apply Hidx, Hsub, Hj.
Qed.

(** As many valid requests as there are free slots are all served, and
    the request after them finds the pool exhausted. *)
Lemma AllocateAll_drains rs : ∀ p m r,
  pool_ok p m → length rs = length (free_slots p) →
  Forall (valid_request (page_size (pool_state p))) rs →
  ∃ ptrs p' m',
    AllocateAll p (rs ++ [r]) m = Returned ((Some <$> ptrs) ++ [None], p') m' ∧
    length ptrs = length rs.
Proof.
  induction rs as [|r0 rs IH]; intros p m r Hok Hlen Hreq.
  - exists [], p, m. split; [|done]. simpl.
    rewrite Allocate_exhausted; [done|]. by apply nil_length_inv.
  - apply Forall_cons in Hreq as [Hr0 Hreq].
    destruct (Allocate_free_slot p (req_size r0) (req_align r0) (req_caller r0) m)
      as (ptr & p1 & m1 & Halloc & Hok1 & Hst1 & Hlen1); [done | | done |].
    { intros Hnil. rewrite Hnil in Hlen. done. }
    destruct (IH p1 m1 r) as (ptrs & p2 & m2 & Hall & Hptrs).
    + done.
    + simpl in Hlen. lia.
    + by rewrite Hst1.
    + exists (ptr :: ptrs), p2, m2. split; [|simpl; lia].
      cbn [app AllocateAll]. rewrite Halloc. cbn [obind]. rewrite Hall. done.
Qed.

Lemma Initialize_pool_ok ps n seed m p m' :
  ps = PAGE_SIZE → Initialize ps n seed m = Returned (Some p) m' →
  pool_ok p m' ∧ page_size (pool_state p) = ps ∧ free_slots p = seq 0 n.
Proof.
  intros Hps. unfold Initialize.
  destruct (MapRegion (D := pool_decls n false)
              {| page_size := ps; pages_base_addr := nullptr |} m)
    as [r m1|msg] eqn:Hmap; [|done].
  cbn [obind]. destruct (r =? MAP_FAILED) eqn:Hr; [done|].
  apply Z.eqb_neq in Hr. intros [= <- <-].
  pose proof (MapRegion_inv _ _ _ _ Hmap) as [[? _]|(_ & _ & Hal & _)]; [done|].
  split_and!; try done. split_and!; simpl; try done.
  - intros i Hi. unfold SlotAddress. simpl.
    eapply (MapRegion_mapped _ _ _ _ (r + (3 * Z.of_nat i + 1) * ps)) in Hmap
      as [_ Hmapped]; [by rewrite Hmapped | done |].
    simpl. pose proof PAGE_SIZE_pos. nia.
  - intros i Hi. apply elem_of_seq in Hi. lia.
Qed.

End PoolFacts.

(* ===================================================================== *)
(** * 8. The claims                                                       *)
(* ===================================================================== *)

(** C1: for a page-aligned [p], once [MarkPageInaccessible(p)] has returned,
    every address of [p, p + page_size) is mapped with no access (loads and
    stores fault), whatever protection the page had before; and the call
    does return for every mapped page of the user address space, as a
    slot's page is. *)
Theorem MarkPageInaccessible_no_access {K : Kernel} st p m :
  page_aligned p = true →
  (is_Some (m !! page_of p) → 0 ≤ p → p + PAGE_SIZE ≤ TASK_SIZE →
   page_size st = PAGE_SIZE →
   ∃ m', MarkPageInaccessible st p m = Returned tt m') ∧
  (∀ m', MarkPageInaccessible st p m = Returned tt m' →
   ∀ a, p ≤ a < p + page_size st → no_access m' a).
Proof.
  intros Hal. split.
  - intros Hmapped H0 Htop Hps. eexists. apply MarkPageInaccessible_ok; [done|..].
    + rewrite Hps. apply PAGE_SIZE_pos.
    + rewrite Hps. by apply in_user_one_page.
    + rewrite Hps. by apply may_map_fixed_one_page.
  - intros m' Hret a Ha.
    apply MarkPageInaccessible_inv in Hret as [(_ & _ & _ & ->)|[-> _]].
    + eapply no_access_lookup; [by apply remap_none_inside | done].
    + by rewrite MAP_FAILED_unaligned in Hal.
Qed.

(** C2: when [MapRegion] succeeds (its result is not [MAP_FAILED]), every
    address of the [RegionSize()] bytes from the returned base is mapped
    with no access: neither readable nor writable. *)
Theorem MapRegion_no_access {K : Kernel} {D : Decls} st m r m' :
  MapRegion st m = Returned r m' → r ≠ MAP_FAILED →
  ∀ a, r ≤ a < r + RegionSize st → no_access m' a.
Proof.
  intros Hmap Hr a Ha.
  destruct (MapRegion_mapped st m r m' a Hmap Hr Ha) as [_ Hfresh].
  by eapply no_access_lookup.
Qed.

(** C3: for a page-aligned [p] of a mapped page, [MarkPageReadWrite(p)]
    returns; once it has returned, every address of [p, p + page_size) is
    readable and writable, and the address space differs from the one
    before in the protection of the single page at [p] only (the page keeps
    its contents). *)
Theorem MarkPageReadWrite_read_write {K : Kernel} st p m :
  page_size st = PAGE_SIZE →
  (page_aligned p = true → is_Some (m !! page_of p) →
   ∃ m', MarkPageReadWrite st p m = Returned tt m') ∧
  (∀ m', MarkPageReadWrite st p m = Returned tt m' →
   (∀ a, p ≤ a < p + page_size st → read_write m' a) ∧
   ∃ pg, m !! page_of p = Some pg ∧
         m' = <[page_of p := with_prot (Z.lor PROT_READ PROT_WRITE) pg]> m).
Proof.
  intros Hps. pose proof PAGE_SIZE_pos as Hpos. split.
  - intros Hal Hm. eexists. apply MarkPageReadWrite_ok; [done | lia |].
    rewrite Hps. by apply range_mapped_one_page.
  - intros m' Hret. apply MarkPageReadWrite_inv in Hret as (Hal & _ & Hm & ->).
    assert (is_Some (m !! page_of p)) as [pg Hpg].
    { eapply range_mapped_spec; [done|]. apply page_range_covers; [done|lia]. }
    split.
    + intros a Ha.
      assert (page_of a = page_of p) as Hpa.
      { apply page_of_unique. apply page_aligned_spec in Hal. lia. }
      eapply read_write_lookup.
      * rewrite reprotect_rw_inside, Hpa, Hpg by done. done.
      * done.
    + exists pg. split; [done|]. apply map_eq. intros i.
      unfold reprotect_rw. rewrite lookup_update_range, Hps, pages_of_PAGE_SIZE.
      destruct (decide (i = page_of p)) as [->|Hne].
      * rewrite lookup_insert_eq, decide_True, Hpg; [done|].
        apply elem_of_page_range. lia.
      * rewrite lookup_insert_ne, decide_False; [done| |done].
        rewrite elem_of_page_range. lia.
Qed.

(** C5: both page calls leave every page outside the targeted byte range as
    it was (protection and contents), whenever [page_size] is a whole
    number of pages; in particular the addresses of the pages just below
    and just above the range that had no access still have none. *)
Theorem page_toggle_frame {K : Kernel} st p m m' :
  page_size st mod PAGE_SIZE = 0 →
  MarkPageReadWrite st p m = Returned tt m' ∨
  MarkPageInaccessible st p m = Returned tt m' →
  (∀ a, ¬ (p ≤ a < p + page_size st) →
     m' !! page_of a = m !! page_of a ∧ prot_at m' a = prot_at m a ∧
     load m' a = load m a) ∧
  (∀ g, p - page_size st ≤ g < p ∨ p + page_size st ≤ g < p + 2 * page_size st →
     no_access m g → no_access m' g).
Proof.
  intros Hwhole Hret.
  assert (∀ a, ¬ (p ≤ a < p + page_size st) → m' !! page_of a = m !! page_of a)
    as Hframe.
  { intros a Hout. destruct Hret as [Hret|Hret].
    - apply MarkPageReadWrite_inv in Hret as (Hal & _ & _ & ->).
      by apply reprotect_rw_outside.
    - apply MarkPageInaccessible_inv in Hret as [(Hal & _ & _ & ->)|[_ ->]];
        [by apply remap_none_outside | done]. }
  split.
  - intros a Hout. specialize (Hframe a Hout).
    unfold prot_at, load. by rewrite Hframe.
  - intros g Hg. apply no_access_same_page, Hframe. lia.
Qed.

(** C6: on a page that is already read-write, [MarkPageReadWrite] returns
    and leaves the address space as it was; on a page that already has no
    access, [MarkPageInaccessible] returns and the page still has no access;
    and either call, made a second time on the address space the first one
    returned, returns that same address space. *)
Theorem page_toggle_idempotent {K : Kernel} st p m :
  page_aligned p = true → page_size st = PAGE_SIZE →
  (prot_at m p = Some (Z.lor PROT_READ PROT_WRITE) →
   MarkPageReadWrite st p m = Returned tt m) ∧
  (prot_at m p = Some PROT_NONE → 0 ≤ p → p + PAGE_SIZE ≤ TASK_SIZE →
   ∃ m', MarkPageInaccessible st p m = Returned tt m' ∧
         (∀ a, prot_at m' a = prot_at m a) ∧
         ∀ a, p ≤ a < p + page_size st → no_access m' a) ∧
  (∀ m1, MarkPageReadWrite st p m = Returned tt m1 →
         MarkPageReadWrite st p m1 = Returned tt m1) ∧
  (∀ m1, MarkPageInaccessible st p m = Returned tt m1 →
         MarkPageInaccessible st p m1 = Returned tt m1).
Proof.
  intros Hal Hps. pose proof PAGE_SIZE_pos as Hpos.
  assert (∀ i, i ∈ page_range p (pages_of (page_size st)) ↔ i = page_of p) as Hone.
  { intros i. rewrite elem_of_page_range, Hps, pages_of_PAGE_SIZE. lia. }
  split_and!.
  - intros Hrw. unfold prot_at in Hrw.
    destruct (m !! page_of p) as [[pr dat]|] eqn:Hpg; [|done].
    simpl in Hrw. injection Hrw as ->.
    rewrite MarkPageReadWrite_ok; [|done|lia|].
    + f_equal. apply map_eq. intros i. unfold reprotect_rw.
      rewrite lookup_update_range. case_decide as Hi; [|done].
      apply Hone in Hi as ->. by rewrite Hpg.
    + rewrite Hps. apply range_mapped_one_page. by rewrite Hpg.
  - intros Hnone H0 Htop. eexists. split_and!.
    + apply MarkPageInaccessible_ok; [done | lia | |].
      * rewrite Hps. by apply in_user_one_page.
      * rewrite Hps. apply may_map_fixed_one_page. unfold prot_at in Hnone.
        by destruct (m !! page_of p).
    + intros a. unfold prot_at, remap_none. rewrite lookup_update_range.
      case_decide as Hi; [|done]. apply Hone in Hi. rewrite Hi.
      unfold prot_at in Hnone. by rewrite Hnone.
    + intros a Ha. eapply no_access_lookup; [by apply remap_none_inside | done].
  - intros m1 Hret. apply MarkPageReadWrite_inv in Hret as (_ & Hlen & Hm & ->).
    rewrite MarkPageReadWrite_ok; [|done|done|].
    + f_equal. apply map_eq. intros i. unfold reprotect_rw.
      rewrite !lookup_update_range. case_decide; [|done].
      by destruct (m !! i).
    + apply range_mapped_spec. intros i Hi. unfold reprotect_rw.
      rewrite lookup_update_range, decide_True by done.
      apply fmap_is_Some. by eapply range_mapped_spec.
  - intros m1 Hret.
    apply MarkPageInaccessible_inv in Hret as [(_ & Hlen & Hu & ->)|[-> _]].
    + rewrite MarkPageInaccessible_ok;
        [|done|done|done|apply may_map_fixed_mapped, range_mapped_remap_none].
      f_equal. apply map_eq. intros i. unfold remap_none.
      rewrite !lookup_update_range. by case_decide.
    + by rewrite MAP_FAILED_unaligned in Hal.
Qed.

(** C4 (as the code has it): a failure of the system call is not handed
    back to the caller.  Both functions return no value; when [mprotect]
    fails, [MarkPageReadWrite] ends the process in the fatal check, and so
    does [MarkPageInaccessible] for a page-aligned address when [mmap]
    fails; a call that returns is one whose system call succeeded. *)
Theorem page_call_failure_is_fatal {K : Kernel} st p m :
  page_aligned p = true →
  ((mprotect m p (page_size st) (Z.lor PROT_READ PROT_WRITE)).1 ≠ 0 →
   MarkPageReadWrite st p m = Fatal "mprotect") ∧
  ((mmap m p (page_size st) PROT_NONE
      (Z.lor (Z.lor MAP_FIXED MAP_ANONYMOUS) MAP_PRIVATE) 0 0).1 = MAP_FAILED →
   MarkPageInaccessible st p m = Fatal "mmap") ∧
  (∀ r m', MarkPageReadWrite st p m = Returned r m' →
     r = tt ∧ mprotect m p (page_size st) (Z.lor PROT_READ PROT_WRITE) = (0, m')) ∧
  (∀ r m', MarkPageInaccessible st p m = Returned r m' →
     r = tt ∧ mmap m p (page_size st) PROT_NONE
                (Z.lor (Z.lor MAP_FIXED MAP_ANONYMOUS) MAP_PRIVATE) 0 0 = (p, m')).
Proof.
  intros Hal. apply page_aligned_not_MAP_FAILED in Hal.
  unfold MarkPageReadWrite, MarkPageInaccessible, PCHECK, CHECK. split_and!.
  - destruct (mprotect _ _ _ _) as [err m1]. simpl. intros Herr.
    by apply Z.eqb_neq in Herr as ->.
  - destruct (mmap _ _ _ _ _ _ _) as [err m1]. simpl. intros ->.
    assert ((MAP_FAILED =? p) = false) as -> by (apply Z.eqb_neq; done). done.
  - intros [] m'. destruct (mprotect _ _ _ _) as [err m1].
    destruct (err =? 0) eqn:Herr; [|done]. apply Z.eqb_eq in Herr as ->.
    by intros [= ->].
  - intros [] m'. destruct (mmap _ _ _ _ _ _ _) as [err m1].
    destruct (err =? p) eqn:Herr; [|done]. apply Z.eqb_eq in Herr as ->.
    by intros [= ->].
Qed.

(** C7: [MapRegion] never ends the process: it always returns to its
    caller, either [MAP_FAILED], with the address space untouched, or a base
    address that differs from [MAP_FAILED] and from null, is page-aligned
    and heads [RegionSize()] bytes that were unmapped before the call and
    are mapped after it. *)
Theorem MapRegion_recoverable {K : Kernel} {D : Decls} st m :
  ∃ r m', MapRegion st m = Returned r m' ∧
    ((r = MAP_FAILED ∧ m' = m) ∨
     (r ≠ MAP_FAILED ∧ r ≠ nullptr ∧ page_aligned r = true ∧
      0 < r ∧ r + RegionSize st ≤ TASK_SIZE ∧
      ∀ a, r ≤ a < r + RegionSize st → prot_at m a = None ∧ is_Some (prot_at m' a))).
Proof.
  destruct (MapRegion st m) as [r m'|msg] eqn:Hmap.
  2:{ unfold MapRegion in Hmap. by destruct (mmap _ _ _ _ _ _ _). }
  exists r, m'. split; [done|].
  pose proof (MapRegion_inv _ _ _ _ Hmap)
    as [[-> ->]|(_ & Hlen & Hal & Hmin & Htop & _ & _)]; [by left | right].
  pose proof PAGE_SIZE_pos as Hpos.
  pose proof (pages_of_bounds (RegionSize st)) as Hpages.
  assert (r ≠ MAP_FAILED) as Hr by by apply page_aligned_not_MAP_FAILED.
  split_and!; [done | unfold nullptr; lia | done | lia | lia |].
  intros a Ha. destruct (MapRegion_mapped st m r m' a Hmap Hr Ha) as [Hbefore Hafter].
  unfold prot_at. rewrite Hbefore, Hafter. split; [done | by eexists].
Qed.

(** C9: on a mapped page, [MarkPageInaccessible(p)] followed by
    [MarkPageReadWrite(p)] both return, and whatever two address spaces the
    pair starts from, every address of the page then reads as the zero byte
    in both: the page is a fresh one and nothing of its earlier contents is
    left. *)
Theorem MarkPageInaccessible_discards_contents {K : Kernel} st p mA mB :
  page_aligned p = true → 0 ≤ p → p + PAGE_SIZE ≤ TASK_SIZE →
  page_size st = PAGE_SIZE →
  is_Some (mA !! page_of p) → is_Some (mB !! page_of p) →
  ∃ mA1 mA2 mB1 mB2,
    MarkPageInaccessible st p mA = Returned tt mA1 ∧
    MarkPageReadWrite st p mA1 = Returned tt mA2 ∧
    MarkPageInaccessible st p mB = Returned tt mB1 ∧
    MarkPageReadWrite st p mB1 = Returned tt mB2 ∧
    mA2 !! page_of p = mB2 !! page_of p ∧
    ∀ a, p ≤ a < p + page_size st →
      load mA2 a = Some Byte.x00 ∧ load mB2 a = Some Byte.x00.
Proof.
  intros Hal H0 Htop Hps HA HB. pose proof PAGE_SIZE_pos as Hpos.
  assert (∀ m a, p ≤ a < p + page_size st →
            reprotect_rw st p (remap_none st p m) !! page_of a
            = Some (fresh_page (Z.lor PROT_READ PROT_WRITE))) as Hfresh.
  { intros m a Ha. by rewrite reprotect_rw_inside, remap_none_inside. }
  assert (∀ m, is_Some (m !! page_of p) →
            MarkPageInaccessible st p m = Returned tt (remap_none st p m)) as HI.
  { intros m Hm. apply MarkPageInaccessible_ok; [done | lia | |].
    - rewrite Hps. by apply in_user_one_page.
    - rewrite Hps. by apply may_map_fixed_one_page. }
  assert (∀ m, MarkPageReadWrite st p (remap_none st p m)
               = Returned tt (reprotect_rw st p (remap_none st p m))) as HRW.
  { intros m. apply MarkPageReadWrite_ok; [done | lia |].
    rewrite Hps. apply range_mapped_one_page.
    rewrite (remap_none_inside st p m p) by (done || lia). by eexists. }
  eexists _, _, _, _.
  split_and!; [by apply HI | apply HRW | by apply HI | apply HRW | |].
  - rewrite !Hfresh by lia. done.
  - intros a Ha. unfold load. rewrite !Hfresh by done. done.
Qed.

(** C10 (as the code has it): the only thing [UnmapRegion] checks about
    the reservation is that [state_.pages_base_addr] is not null: with a
    null base it ends the process in the [CHECK]; with a non-null,
    page-aligned base of the user address space and a region of a whole,
    positive number of pages it returns, having unmapped the
    [RegionSize()] bytes from the base and nothing else. *)
Theorem UnmapRegion_checked {K : Kernel} {D : Decls} st m :
  (pages_base_addr st = nullptr →
   UnmapRegion st m = Fatal "state_.pages_base_addr") ∧
  (pages_base_addr st ≠ nullptr →
   page_aligned (pages_base_addr st) = true →
   0 ≤ pages_base_addr st →
   pages_base_addr st + RegionSize st ≤ TASK_SIZE →
   0 < RegionSize st → RegionSize st mod PAGE_SIZE = 0 →
   ∃ m', UnmapRegion st m = Returned tt m' ∧
     munmap m (pages_base_addr st) (RegionSize st) = (0, m') ∧
     ∀ a, (pages_base_addr st ≤ a < pages_base_addr st + RegionSize st →
           m' !! page_of a = None ∧ load m' a = None) ∧
          (¬ (pages_base_addr st ≤ a < pages_base_addr st + RegionSize st) →
           m' !! page_of a = m !! page_of a)).
Proof.
  unfold UnmapRegion. split.
  - intros ->. done.
  - intros Hnn Hal H0 Htop Hlen Hwhole. pose proof PAGE_SIZE_pos as Hpos.
    assert ((pages_base_addr st =? 0) = false) as -> by (apply Z.eqb_neq; done).
    simpl. assert (PAGE_SIZE ≠ 0) as Hnz by lia.
    pose proof (Z.div_mod (RegionSize st) PAGE_SIZE Hnz) as Hdm.
    rewrite Hwhole, Z.add_0_r, Z.mul_comm in Hdm.
    assert (pages_of (RegionSize st) = RegionSize st / PAGE_SIZE) as Hn.
    { rewrite Hdm at 1. apply pages_of_mul. }
    unfold munmap. rewrite Hal, bool_decide_eq_true_2 by done.
    assert (in_user (pages_base_addr st) (pages_of (RegionSize st)) = true) as ->.
    { unfold in_user. apply andb_true_iff. split; apply Z.leb_le; [done|].
      rewrite Hn, <- Hdm. done. }
    simpl. eexists. split_and!.
    + unfold DCHECK_EQ, CHECK. by destruct DCHECK_IS_ON.
    + done.
    + intros a. split.
      * intros Ha. assert (update_pages (λ _, None)
            (page_range (pages_base_addr st) (pages_of (RegionSize st))) m
            !! page_of a = None) as Hgone.
        { rewrite lookup_update_range, decide_True; [done|].
          by apply page_range_covers. }
        split; [done|]. unfold load. by rewrite Hgone.
      * intros Hout. rewrite lookup_update_range, decide_False; [done|].
        intros Hin. apply Hout. rewrite Hn in Hin.
        apply page_range_exact in Hin; [|done]. lia.
Qed.

(** C8: with 4096-byte pages and 4 slots, a pool that [Initialize] has just
    returned has 4 free slots; 4 consecutive [Allocate] calls with valid
    requests each return a pointer, and the 5th call, whatever it asks for,
    returns "no slot". *)
Theorem pool_of_four_exhausts_on_fifth {K : Kernel} {R : Random}
    seed m p m0 rs r5 :
  PAGE_SIZE = 4096 →
  Initialize 4096 4 seed m = Returned (Some p) m0 →
  length rs = 4%nat → Forall (valid_request 4096) rs →
  length (free_slots p) = 4%nat ∧
  ∃ a1 a2 a3 a4 p' m',
    AllocateAll p (rs ++ [r5]) m0 =
      Returned ([Some a1; Some a2; Some a3; Some a4; None], p') m'.
Proof.
  intros Hpage Hinit Hlen Hreq.
  apply Initialize_pool_ok in Hinit as (Hok & Hps & Hfree); [|done].
  assert (length (free_slots p) = 4%nat) as Hfour by by rewrite Hfree.
  split; [done|].
  destruct (AllocateAll_drains rs p m0 r5) as (ptrs & p' & m' & Hall & Hptrs);
    [done | lia | by rewrite Hps |].
  rewrite Hlen in Hptrs.
  destruct ptrs as [|a1 [|a2 [|a3 [|a4 [|]]]]]; try done.
  by exists a1, a2, a3, a4, p', m'.
Qed.

(* ===================================================================== *)
(** * 9. The claims on concrete address spaces                            *)
(* ===================================================================== *)

Section Witnesses.
Local Existing Instances linux_4k lcg decls_16.

Lemma MarkPageInaccessible_no_access_witness :
  (∃ m', MarkPageInaccessible (state_4k 8192) 12288 rw_vm = Returned tt m') ∧
  (∀ m', MarkPageInaccessible (state_4k 8192) 12288 rw_vm = Returned tt m' →
   no_access m' 12300).
Proof.
  destruct (MarkPageInaccessible_no_access (K := linux_4k) (state_4k 8192) 12288 rw_vm eq_refl)
    as [Hret Hna].
  split.
  - apply Hret; [vm_compute; by eexists | lia | vm_compute; discriminate
                | reflexivity].
  - intros m' Hm'. apply (Hna m' Hm'). simpl. lia.
Defined.

Lemma MapRegion_no_access_witness :
  MapRegion (state_4k 0) ∅ = Returned 8192 region_vm ∧
  no_access region_vm (8192 + 33 * 4096 - 1).
Proof.
  assert (MapRegion (state_4k 0) ∅ = Returned 8192 region_vm) as Hmap
    by (vm_compute; reflexivity).
  split; [exact Hmap|].
  apply (MapRegion_no_access (state_4k 0) ∅ 8192 region_vm Hmap).
  - unfold MAP_FAILED. lia.
  - simpl. lia.
Defined.

Lemma MarkPageReadWrite_read_write_witness :
  (∃ m', MarkPageReadWrite (state_4k 8192) 12288 region_vm = Returned tt m') ∧
  (∀ m', MarkPageReadWrite (state_4k 8192) 12288 region_vm = Returned tt m' →
   read_write m' 16383 ∧ no_access m' 16384).
Proof.
  destruct (MarkPageReadWrite_read_write (K := linux_4k) (state_4k 8192) 12288 region_vm eq_refl)
    as [Hret Hrw].
  split.
  - apply Hret; [reflexivity | vm_compute; by eexists].
  - intros m' Hm'. destruct (Hrw m' Hm') as [Hin (pg & Hpg & ->)]. split.
    + apply Hin. simpl. lia.
    + apply (no_access_same_page region_vm).
      * apply lookup_insert_ne. vm_compute. discriminate.
      * eapply no_access_lookup; [vm_compute; reflexivity | reflexivity].
Defined.

(** C4, as the claim words it, fails: here [mprotect] and [mmap] fail
    (an unmapped page; a page beyond the user address space) and neither
    function returns anything to its caller. *)
Lemma page_call_failure_not_returned :
  ((mprotect ∅ 12288 4096 (Z.lor PROT_READ PROT_WRITE)).1 = -1 ∧
   ¬ ∃ r m', MarkPageReadWrite (state_4k 8192) 12288 ∅ = Returned r m') ∧
  ((mmap region_vm TASK_SIZE 4096 PROT_NONE
      (Z.lor (Z.lor MAP_FIXED MAP_ANONYMOUS) MAP_PRIVATE) 0 0).1 = MAP_FAILED ∧
   ¬ ∃ r m', MarkPageInaccessible (state_4k 8192) TASK_SIZE region_vm = Returned r m').
Proof.
  split; (split; [vm_compute; reflexivity|]); intros (r & m' & Hret);
    vm_compute in Hret; discriminate.
Qed.

Lemma page_call_failure_is_fatal_witness :
  MarkPageReadWrite (state_4k 8192) 12288 ∅ = Fatal "mprotect" ∧
  MarkPageInaccessible (state_4k 8192) TASK_SIZE region_vm = Fatal "mmap".
Proof.
  split.
  - apply (page_call_failure_is_fatal (K := linux_4k) (state_4k 8192) 12288 ∅ eq_refl).
    vm_compute. discriminate.
  - apply (page_call_failure_is_fatal (K := linux_4k) (state_4k 8192) TASK_SIZE region_vm eq_refl).
    vm_compute. reflexivity.
Defined.

Lemma page_toggle_frame_witness :
  prot_at rw_vm 8192 = prot_at region_vm 8192 ∧ no_access rw_vm 16384.
Proof.
  assert (MarkPageReadWrite (state_4k 8192) 12288 region_vm = Returned tt rw_vm)
    as Hret by (vm_compute; reflexivity).
  destruct (page_toggle_frame (K := linux_4k) (state_4k 8192) 12288 region_vm rw_vm eq_refl
              (or_introl Hret)) as [Hframe Hguard].
  split.
  - apply (Hframe 8192). simpl. lia.
  - apply (Hguard 16384); [simpl; lia|].
    eapply no_access_lookup; [vm_compute; reflexivity | reflexivity].
Defined.

Lemma page_toggle_idempotent_witness :
  MarkPageReadWrite (state_4k 8192) 12288 rw_vm = Returned tt rw_vm ∧
  ∃ m', MarkPageInaccessible (state_4k 8192) 12288 region_vm = Returned tt m' ∧
        MarkPageInaccessible (state_4k 8192) 12288 m' = Returned tt m'.
Proof.
  destruct (page_toggle_idempotent (K := linux_4k) (state_4k 8192) 12288 rw_vm eq_refl eq_refl)
    as (Hrw & _ & _ & _).
  destruct (page_toggle_idempotent (K := linux_4k) (state_4k 8192) 12288 region_vm eq_refl eq_refl)
    as (_ & Hnone & _ & Htwice).
  split; [apply Hrw; vm_compute; reflexivity|].
  destruct Hnone as (m' & Hret & _); [vm_compute; reflexivity | lia
    | vm_compute; discriminate |].
  exists m'. split; [exact Hret | exact (Htwice m' Hret)].
Defined.

Lemma MarkPageInaccessible_discards_contents_witness :
  load dirty_vm 12300 = Some Byte.x41 ∧ load rw_vm 12300 = Some Byte.x00 ∧
  ∃ mA1 mA2 mB1 mB2,
    MarkPageInaccessible (state_4k 8192) 12288 dirty_vm = Returned tt mA1 ∧
    MarkPageReadWrite (state_4k 8192) 12288 mA1 = Returned tt mA2 ∧
    MarkPageInaccessible (state_4k 8192) 12288 rw_vm = Returned tt mB1 ∧
    MarkPageReadWrite (state_4k 8192) 12288 mB1 = Returned tt mB2 ∧
    load mA2 12300 = Some Byte.x00 ∧ load mB2 12300 = Some Byte.x00.
Proof.
  split; [vm_compute; reflexivity|]. split; [vm_compute; reflexivity|].
  destruct (MarkPageInaccessible_discards_contents (K := linux_4k) (state_4k 8192) 12288
              dirty_vm rw_vm eq_refl)
    as (mA1 & mA2 & mB1 & mB2 & HA1 & HA2 & HB1 & HB2 & _ & Hzero);
    [lia | vm_compute; discriminate | reflexivity | vm_compute; by eexists
    | vm_compute; by eexists |].
  exists mA1, mA2, mB1, mB2. split_and!; try done; apply Hzero; simpl; lia.
Defined.

(** C10, as the claim words it, fails: a call that no successful
    reservation precedes is not always a checked fatal error.  With the
    [MAP_FAILED] of a failed [MapRegion] as the stored base, and [DCHECK]s
    compiled out, [UnmapRegion] returns with nothing done; so it does, in
    every build, with a base that heads no mapping at all. *)
Lemma UnmapRegion_unreserved_returns :
  (MapRegion (D := pool_decls 4 false)
     {| page_size := TASK_SIZE; pages_base_addr := nullptr |} ∅
     = Returned MAP_FAILED ∅ ∧
   UnmapRegion (D := pool_decls 4 false)
     {| page_size := TASK_SIZE; pages_base_addr := MAP_FAILED |} ∅
     = Returned tt ∅) ∧
  UnmapRegion (state_4k 8192) ∅ = Returned tt ∅.
Proof. repeat split; vm_compute; reflexivity. Qed.

Lemma UnmapRegion_checked_witness :
  UnmapRegion (state_4k 0) region_vm = Fatal "state_.pages_base_addr" ∧
  ∃ m', UnmapRegion (state_4k 8192) region_vm = Returned tt m' ∧
        m' !! page_of 12288 = None.
Proof.
  split.
  - apply (UnmapRegion_checked (state_4k 0) region_vm). reflexivity.
  - destruct (UnmapRegion_checked (state_4k 8192) region_vm) as [_ Hunmap].
    destruct Hunmap as (m' & Hret & _ & Hgone);
      [simpl; unfold nullptr; lia | reflexivity | simpl; lia
      | vm_compute; discriminate | simpl; lia | reflexivity |].
    exists m'. split; [exact Hret|]. apply (Hgone 12288). simpl. lia.
Defined.

Lemma pool_of_four_exhausts_on_fifth_witness :
  ∃ p m0, Initialize 4096 4 42 ∅ = Returned (Some p) m0 ∧
    length (free_slots p) = 4%nat ∧
    ∃ a1 a2 a3 a4 p' m',
      AllocateAll p ([request_8 16; request_8 0; request_8 4096; request_8 100]
                     ++ [request_8 1]) m0 =
        Returned ([Some a1; Some a2; Some a3; Some a4; None], p') m'.
Proof.
  eexists _, _. split; [vm_compute; reflexivity|].
  eapply (pool_of_four_exhausts_on_fifth 42 ∅); [reflexivity | vm_compute; reflexivity
    | reflexivity |].
  repeat constructor.
Defined.

(** [MapRegion] does hand the failure back: a region of no bytes cannot be
    mapped, and the caller receives [MAP_FAILED]. *)
Example MapRegion_failure_returned :
  MapRegion (D := pool_decls 0 true) (state_4k 0) region_vm
    = Returned MAP_FAILED region_vm.
Proof. vm_compute. reflexivity. Qed.

End Witnesses.

(* ===================================================================== *)
(** * 10. Further properties of the backend                               *)
(* ===================================================================== *)

(** X1: a region that [MapRegion] has reserved is given back in full by
    [UnmapRegion] on the returned base: the address space is again the one
    [MapRegion] started from. *)
Theorem MapRegion_UnmapRegion_round_trip {K : Kernel} {D : Decls} st st' m r m1 :
  MapRegion st m = Returned r m1 → r ≠ MAP_FAILED →
  pages_base_addr st' = r → RegionSize st' = RegionSize st →
  UnmapRegion st' m1 = Returned tt m.
Proof.
  intros Hmap Hr Hbase Hsize. pose proof PAGE_SIZE_pos as Hpos.
  apply MapRegion_inv in Hmap
    as [[? _]|(_ & Hlen & Hal & Hmin & Htop & Hfree & ->)]; [done|].
  unfold UnmapRegion. rewrite Hbase, Hsize.
  assert ((r =? 0) = false) as -> by (apply Z.eqb_neq; lia).
  cbn [negb CHECK obind]. unfold munmap.
  rewrite Hal, bool_decide_eq_true_2 by done.
  assert (in_user r (pages_of (RegionSize st)) = true) as ->.
  { unfold in_user. apply andb_true_iff. split; apply Z.leb_le; lia. }
  cbn [andb]. unfold DCHECK_EQ, CHECK. cbn [Z.eqb].
  assert (update_pages (λ _, None) (page_range r (pages_of (RegionSize st)))
            (update_pages (λ _, Some (fresh_page PROT_NONE))
               (page_range r (pages_of (RegionSize st))) m) = m) as ->.
  { apply map_eq. intros i. rewrite !lookup_update_range.
    case_decide as Hi; [|done]. symmetry. by eapply range_free_spec in Hfree. }
  by destruct DCHECK_IS_ON.
Qed.

(** X2: [MapRegion] never touches a page that is already mapped: whatever
    it returns, every mapping of the address space it started from is
    still there, with its protection and its contents. *)
Theorem MapRegion_keeps_mappings {K : Kernel} {D : Decls} st m r m' i pg :
  MapRegion st m = Returned r m' → m !! i = Some pg → m' !! i = Some pg.
Proof.
  intros Hmap Hpg.
  apply MapRegion_inv in Hmap as [[_ ->]|(_ & _ & _ & _ & _ & Hfree & ->)]; [done|].
  rewrite lookup_update_range. case_decide as Hi; [|done].
  eapply range_free_spec in Hfree; [|done]. congruence.
Qed.

(** X3: two regions reserved one after the other do not overlap, and the
    second reservation leaves every address of the first region without
    access. *)
Theorem MapRegion_regions_disjoint {K : Kernel} {D : Decls} st1 st2 m r1 m1 r2 m2 a :
  MapRegion st1 m = Returned r1 m1 → r1 ≠ MAP_FAILED →
  MapRegion st2 m1 = Returned r2 m2 → r2 ≠ MAP_FAILED →
  r1 ≤ a < r1 + RegionSize st1 →
  ¬ (r2 ≤ a < r2 + RegionSize st2) ∧ no_access m2 a.
Proof.
  intros Hmap1 Hr1 Hmap2 Hr2 Ha.
  destruct (MapRegion_mapped st1 m r1 m1 a Hmap1 Hr1 Ha) as [_ Hfirst].
  split.
  - intros Ha2.
    destruct (MapRegion_mapped st2 m1 r2 m2 a Hmap2 Hr2 Ha2) as [Hfree _].
    congruence.
  - apply (no_access_lookup _ _ (fresh_page PROT_NONE)); [|done].
    apply MapRegion_inv in Hmap2 as [[_ ->]|(_ & _ & _ & _ & _ & Hfree & ->)]; [done|].
    rewrite lookup_update_range. case_decide as Hi; [|done].
    eapply range_free_spec in Hfree; [|done]. congruence.
Qed.

(** X4: [MapRegion] fails, returning [MAP_FAILED] and leaving the address
    space alone, when [RegionSize()] is zero (or negative) or exceeds the
    user address space, wherever the kernel would place the mapping. *)
Theorem MapRegion_bad_size {K : Kernel} {D : Decls} st m :
  RegionSize st ≤ 0 ∨ TASK_SIZE < RegionSize st →
  MapRegion st m = Returned MAP_FAILED m.
Proof.
  intros Hsize. destruct (MapRegion st m) as [r m'|msg] eqn:Hmap.
  2:{ unfold MapRegion in Hmap. by destruct (mmap _ _ _ _ _ _ _). }
  apply MapRegion_inv in Hmap
    as [[-> ->]|(_ & Hlen & _ & Hmin & Htop & _)]; [done|].
  pose proof PAGE_SIZE_pos. pose proof (pages_of_bounds (RegionSize st)). lia.
Qed.

Lemma MarkPageReadWrite_cases {K : Kernel} st p m :
  (∃ m', MarkPageReadWrite st p m = Returned tt m') ∨
  MarkPageReadWrite st p m = Fatal "mprotect".
Proof.
  unfold MarkPageReadWrite, PCHECK, CHECK. destruct (mprotect _ _ _ _) as [err m1].
  destruct (err =? 0); [left; by eexists | by right].
Qed.

Lemma MarkPageInaccessible_cases {K : Kernel} st p m :
  (∃ m', MarkPageInaccessible st p m = Returned tt m') ∨
  MarkPageInaccessible st p m = Fatal "mmap".
Proof.
  unfold MarkPageInaccessible, PCHECK, CHECK.
  destruct (mmap _ _ _ _ _ _ _) as [err m1].
  destruct (err =? p); [left; by eexists | by right].
Qed.

Lemma same_page {K : Kernel} p a :
  page_aligned p = true → p ≤ a < p + PAGE_SIZE → page_of a = page_of p.
Proof.
  intros Hal Ha. apply page_of_unique. apply page_aligned_spec in Hal. lia.
Qed.

Lemma one_page_range {K : Kernel} st p i :
  page_size st = PAGE_SIZE →
  i ∈ page_range p (pages_of (page_size st)) ↔ i = page_of p.
Proof. intros ->. rewrite elem_of_page_range, pages_of_PAGE_SIZE. lia. Qed.

Lemma store_all_confined {K : Kernel} q l : ∀ m m',
  Forall (λ av : Z * Byte.byte, page_of av.1 = q) l →
  store_all m l = Some m' → ∀ i, i ≠ q → m' !! i = m !! i.
Proof.
  induction l as [|[a v] l IH]; intros m m' Hl Hst i Hi; simpl in Hst.
  - by injection Hst as ->.
  - apply Forall_cons in Hl as [Ha Hl]. simpl in Ha.
    destruct (store m a v) as [m0|] eqn:Hs; [|done]. simpl in Hst.
    rewrite (IH m0 m' Hl Hst i Hi). unfold store in Hs.
    destruct (m !! page_of a) as [pg|]; [|done]. simpl in Hs.
    destruct (writable (pg_prot pg)); [|done]. injection Hs as <-.
    apply lookup_insert_ne. congruence.
Qed.

Lemma store_all_keeps_mapped {K : Kernel} l : ∀ (m m' : vm) i,
  store_all m l = Some m' → is_Some (m !! i) → is_Some (m' !! i).
Proof.
  induction l as [|[a v] l IH]; intros m m' i Hst Hi; simpl in Hst.
  - by injection Hst as <-.
  - destruct (store m a v) as [m0|] eqn:Hs; [|done]. simpl in Hst.
    apply (IH m0 m' i Hst). unfold store in Hs.
    destruct (m !! page_of a) as [pg|]; [|done]. simpl in Hs.
    destruct (writable (pg_prot pg)); [|done]. injection Hs as <-.
    destruct (decide (page_of a = i)) as [->|Hne].
    + rewrite lookup_insert_eq. by eexists.
    + by rewrite lookup_insert_ne.
Qed.

(** X5: each page of a region that [MapRegion] has just reserved can be
    made accessible: [MarkPageReadWrite] returns, the page is readable and
    writable and reads as zeroes, and the rest of the region still has no
    access. *)
Theorem fresh_region_page {K : Kernel} {D : Decls} st m r m1 p :
  MapRegion st m = Returned r m1 → r ≠ MAP_FAILED →
  page_size st = PAGE_SIZE → page_aligned p = true →
  r ≤ p → p + PAGE_SIZE ≤ r + RegionSize st →
  ∃ m2, MarkPageReadWrite st p m1 = Returned tt m2 ∧
    (∀ a, p ≤ a < p + PAGE_SIZE → read_write m2 a ∧ load m2 a = Some Byte.x00) ∧
    (∀ a, r ≤ a < r + RegionSize st → ¬ (p ≤ a < p + PAGE_SIZE) → no_access m2 a).
Proof.
  intros Hmap Hr Hps Hal Hlo Hhi. pose proof PAGE_SIZE_pos as Hpos.
  assert (∀ a, r ≤ a < r + RegionSize st →
            m1 !! page_of a = Some (fresh_page PROT_NONE)) as Hregion.
  { intros a Ha. by destruct (MapRegion_mapped st m r m1 a Hmap Hr Ha). }
  exists (reprotect_rw st p m1). split_and!.
  - apply MarkPageReadWrite_ok; [done | lia |].
    rewrite Hps. apply range_mapped_one_page. rewrite Hregion by lia. by eexists.
  - intros a Ha.
    assert (reprotect_rw st p m1 !! page_of a
            = Some (fresh_page (Z.lor PROT_READ PROT_WRITE))) as Hpg.
    { rewrite reprotect_rw_inside by (done || lia). by rewrite Hregion by lia. }
    split; [by eapply read_write_lookup|]. unfold load. by rewrite Hpg.
  - intros a Ha Hout. apply (no_access_lookup _ _ (fresh_page PROT_NONE)); [|done].
    rewrite reprotect_rw_outside; [by apply Hregion | done | | lia].
    rewrite Hps. apply Z.mod_same. lia.
Qed.

(** X6: [MarkPageReadWrite] changes protection only: once it has returned,
    the same pages are mapped as before and each holds the bytes it held,
    and every address of [p, p + page_size) is readable and writable,
    whatever [page_size] is. *)
Theorem MarkPageReadWrite_keeps_contents {K : Kernel} st p m m' :
  MarkPageReadWrite st p m = Returned tt m' →
  (∀ i, pg_data <$> m' !! i = pg_data <$> m !! i) ∧
  (∀ a, p ≤ a < p + page_size st → read_write m' a).
Proof.
  intros Hret. apply MarkPageReadWrite_inv in Hret as (Hal & _ & Hm & ->). split.
  - intros i. unfold reprotect_rw. rewrite lookup_update_range.
    case_decide; [|done]. by destruct (m !! i).
  - intros a Ha. pose proof (page_range_covers _ _ _ Hal Ha) as Hin.
    destruct (proj1 (range_mapped_spec _ _ _) Hm _ Hin) as [pg Hpg].
    apply (read_write_lookup _ _ (with_prot (Z.lor PROT_READ PROT_WRITE) pg)); [|done].
    by rewrite reprotect_rw_inside, Hpg.
Qed.

(** X7: a full cycle on a page gives the address space back: starting from
    a page that is mapped without access and empty, [MarkPageReadWrite],
    then any stores into the page, then [MarkPageInaccessible] end in the
    address space the cycle started from. *)
Theorem page_cycle_restores {K : Kernel} st p m m1 l m2 :
  page_size st = PAGE_SIZE → 0 ≤ p → p + PAGE_SIZE ≤ TASK_SIZE →
  m !! page_of p = Some (fresh_page PROT_NONE) →
  MarkPageReadWrite st p m = Returned tt m1 →
  Forall (λ av : Z * Byte.byte, p ≤ av.1 < p + page_size st) l →
  store_all m1 l = Some m2 →
  MarkPageInaccessible st p m2 = Returned tt m.
Proof.
  intros Hps H0 Htop Hfresh Hrw Hl Hst. pose proof PAGE_SIZE_pos as Hpos.
  apply MarkPageReadWrite_inv in Hrw as (Hal & _ & _ & ->).
  assert (is_Some (m2 !! page_of p)) as Hm2.
  { apply (store_all_keeps_mapped l (reprotect_rw st p m)); [done|].
    rewrite (reprotect_rw_inside st p m p) by (done || lia). rewrite Hfresh.
    by eexists. }
  rewrite MarkPageInaccessible_ok; [|done|lia|rewrite Hps; by apply in_user_one_page
    |rewrite Hps; by apply may_map_fixed_one_page].
  f_equal. apply map_eq. intros i. unfold remap_none.
  rewrite lookup_update_range. case_decide as Hi.
  - apply one_page_range in Hi as ->; [|done]. by rewrite Hfresh.
  - rewrite one_page_range in Hi by done.
    rewrite (store_all_confined (page_of p) l (reprotect_rw st p m) m2); [| |done|done].
    + unfold reprotect_rw. rewrite lookup_update_range, decide_False; [done|].
      by rewrite one_page_range.
    + eapply Forall_impl; [exact Hl|]. intros [a v] Ha. simpl in *.
      apply same_page; [done|lia].
Qed.

(** X8: [MarkPageReadWrite] ends the process when any address of
    [p, p + page_size) lies on a page that is not mapped, for instance
    after the region has been unmapped. *)
Theorem MarkPageReadWrite_unmapped_fatal {K : Kernel} st p m a :
  p ≤ a < p + page_size st → m !! page_of a = None →
  MarkPageReadWrite st p m = Fatal "mprotect".
Proof.
  intros Ha Hnone. destruct (MarkPageReadWrite_cases st p m) as [[m' Hret]|]; [|done].
  apply MarkPageReadWrite_inv in Hret as (Hal & _ & Hm & _).
  pose proof (page_range_covers _ _ _ Hal Ha) as Hin.
  destruct (proj1 (range_mapped_spec _ _ _) Hm _ Hin) as [pg Hpg]. congruence.
Qed.

(** X9: a failing [munmap] goes unnoticed outside debug builds: with a
    non-null base that is misaligned or a region that is empty or outside
    the user address space, [UnmapRegion] ends the process where [DCHECK]s
    are on and otherwise returns with nothing unmapped. *)
Theorem UnmapRegion_unchecked_failure {K : Kernel} {D : Decls} st m :
  pages_base_addr st ≠ nullptr →
  page_aligned (pages_base_addr st) = false ∨ RegionSize st ≤ 0 ∨
  pages_base_addr st < 0 ∨ TASK_SIZE < pages_base_addr st + RegionSize st →
  UnmapRegion st m = if DCHECK_IS_ON then Fatal "err == 0" else Returned tt m.
Proof.
  intros Hnn Hbad. unfold UnmapRegion.
  assert ((pages_base_addr st =? 0) = false) as -> by (apply Z.eqb_neq; done).
  cbn [negb CHECK obind]. unfold munmap.
  assert (page_aligned (pages_base_addr st) && bool_decide (0 < RegionSize st)
          && in_user (pages_base_addr st) (pages_of (RegionSize st)) = false) as ->.
  { destruct Hbad as [Hal|[Hlen|Hrange]].
    - by rewrite Hal.
    - rewrite (bool_decide_eq_false_2 (0 < RegionSize st)) by lia.
      by rewrite andb_false_r.
    - apply andb_false_iff. right. unfold in_user. apply andb_false_iff.
      pose proof (pages_of_bounds (RegionSize st)).
      destruct Hrange; [left; apply Z.leb_gt | right; apply Z.leb_gt]; lia. }
  unfold DCHECK_EQ, CHECK. by destruct DCHECK_IS_ON.
Qed.

(** X10: [UnmapRegion] does not clear [state_.pages_base_addr], so a second
    call passes the [CHECK] and unmaps the same range again; on the address
    space the first call returned, the second returns it unchanged. *)
Theorem UnmapRegion_twice {K : Kernel} {D : Decls} st m m1 :
  UnmapRegion st m = Returned tt m1 → UnmapRegion st m1 = Returned tt m1.
Proof.
  unfold UnmapRegion. destruct (pages_base_addr st =? 0); [done|].
  cbn [negb CHECK obind]. unfold munmap.
  destruct (_ && in_user _ _); unfold DCHECK_EQ, CHECK.
  - cbn [Z.eqb]. intros Hret.
    assert (m1 = update_pages (λ _, None)
              (page_range (pages_base_addr st) (pages_of (RegionSize st))) m) as ->
      by (destruct DCHECK_IS_ON; by injection Hret).
    assert (∀ m0 : vm, (if DCHECK_IS_ON then Returned tt m0 else Returned tt m0)
                       = Returned tt m0) as -> by (by destruct DCHECK_IS_ON).
    f_equal. apply map_eq. intros i. rewrite !lookup_update_range. by case_decide.
  - destruct DCHECK_IS_ON; [done|]. by intros [= ->].
Qed.

(** X11: toggling two different pages commutes: [MarkPageReadWrite] on one
    page followed by [MarkPageInaccessible] on another ends in the address
    space that the two calls made in the other order end in. *)
Theorem page_calls_commute {K : Kernel} st p q m m1 m2 :
  page_size st = PAGE_SIZE → page_of p ≠ page_of q →
  MarkPageReadWrite st p m = Returned tt m1 →
  MarkPageInaccessible st q m1 = Returned tt m2 →
  ∃ m1', MarkPageInaccessible st q m = Returned tt m1' ∧
         MarkPageReadWrite st p m1' = Returned tt m2.
Proof.
  intros Hps Hpq Hrw Hna.
  apply MarkPageReadWrite_inv in Hrw as (Halp & Hlen & Hm & ->).
  assert (MarkPageReadWrite st p m = Returned tt (reprotect_rw st p m)) as Hrw
    by by apply MarkPageReadWrite_ok.
  pose proof (MarkPageInaccessible_inv_may _ _ _ _ Hna) as Hmay.
  apply MarkPageInaccessible_inv in Hna as [(Halq & Hpos & Hu & ->)|[-> ->]].
  - exists (remap_none st q m). split.
    { apply MarkPageInaccessible_ok; [done..|].
      eapply may_map_fixed_reprotect_rw, Hmay.
      by apply page_aligned_not_MAP_FAILED. }
    rewrite MarkPageReadWrite_ok; [|done|done|].
    + f_equal. apply map_eq. intros i. unfold reprotect_rw, remap_none.
      rewrite !lookup_update_range.
      destruct (decide (i ∈ page_range p _)) as [Hi|Hi];
        destruct (decide (i ∈ page_range q _)) as [Hj|Hj]; try done.
      apply one_page_range in Hi, Hj; congruence.
    + apply range_mapped_spec. intros i Hi. unfold remap_none.
      rewrite lookup_update_range. case_decide; [by eexists|].
      by eapply range_mapped_spec.
  - exists m. split; [|done].
    destruct (MarkPageInaccessible_cases st MAP_FAILED m) as [[m' Hret]|Hfatal].
    + pose proof Hret as Hret'.
      apply MarkPageInaccessible_inv in Hret' as [(Hal & _)|[_ ->]]; [|done].
      by rewrite MAP_FAILED_unaligned in Hal.
    + exfalso. unfold MarkPageInaccessible in Hfatal.
      rewrite mmap_fixed_anon_private, MAP_FAILED_unaligned in Hfatal.
      cbn [andb] in Hfatal. unfold PCHECK, CHECK in Hfatal.
      destruct (bool_decide _); by rewrite Z.eqb_refl in Hfatal.
Qed.

(** X12: a pointer that is not page-aligned ends the process in both page
    calls, with one exception: [MarkPageInaccessible] on the pointer value
    [MAP_FAILED] takes the failed [mmap]'s result for success and returns
    with nothing changed. *)
Theorem misaligned_pointer {K : Kernel} st p m :
  page_aligned p = false →
  MarkPageReadWrite st p m = Fatal "mprotect" ∧
  (p ≠ MAP_FAILED → MarkPageInaccessible st p m = Fatal "mmap") ∧
  (p = MAP_FAILED → MarkPageInaccessible st p m = Returned tt m).
Proof.
  intros Hal. split_and!.
  - unfold MarkPageReadWrite, mprotect. by rewrite Hal.
  - intros Hp. unfold MarkPageInaccessible.
    rewrite mmap_fixed_anon_private, Hal. cbn [andb]. unfold PCHECK, CHECK.
    assert ((MAP_FAILED =? p) = false) as Hne by (apply Z.eqb_neq; done).
    destruct (bool_decide _); by rewrite Hne.
  - intros ->. unfold MarkPageInaccessible.
    rewrite mmap_fixed_anon_private, Hal. cbn [andb]. unfold PCHECK, CHECK.
    destruct (bool_decide _); by rewrite Z.eqb_refl.
Qed.

(* ===================================================================== *)
(** * 11. The further properties on concrete address spaces               *)
(* ===================================================================== *)

Section MoreWitnesses.
Local Existing Instances linux_4k decls_16.

Lemma MapRegion_UnmapRegion_round_trip_witness :
  MapRegion (state_4k 0) ∅ = Returned 8192 region_vm ∧
  UnmapRegion (state_4k 8192) region_vm = Returned tt ∅.
Proof.
  assert (MapRegion (state_4k 0) ∅ = Returned 8192 region_vm) as Hmap
    by (vm_compute; reflexivity).
  split; [exact Hmap|].
  apply (MapRegion_UnmapRegion_round_trip (state_4k 0) (state_4k 8192) ∅ 8192
           region_vm Hmap); [unfold MAP_FAILED; lia | reflexivity | reflexivity].
Defined.

Lemma MapRegion_keeps_mappings_witness :
  ∃ r m', MapRegion (state_4k 0) rw_vm = Returned r m' ∧
          m' !! 3 = Some (fresh_page (Z.lor PROT_READ PROT_WRITE)).
Proof.
  eexists _, _. split; [vm_compute; reflexivity|].
  eapply (MapRegion_keeps_mappings (K := linux_4k) (state_4k 0) rw_vm);
    vm_compute; reflexivity.
Defined.

Lemma MapRegion_regions_disjoint_witness :
  ¬ (two_regions.1 ≤ 12288 < two_regions.1 + RegionSize (state_4k 8192)) ∧
  no_access two_regions.2 12288.
Proof.
  apply (MapRegion_regions_disjoint (K := linux_4k) (state_4k 0) (state_4k 8192)
           ∅ 8192 region_vm two_regions.1 two_regions.2 12288).
  - vm_compute; reflexivity.
  - unfold MAP_FAILED. lia.
  - vm_compute; reflexivity.
  - intros Heq. vm_compute in Heq. discriminate.
  - simpl. lia.
Defined.

Lemma MapRegion_bad_size_witness :
  MapRegion {| page_size := TASK_SIZE; pages_base_addr := 0 |} region_vm
    = Returned MAP_FAILED region_vm ∧
  MapRegion (state_4k 0) (D := pool_decls 0 true) region_vm
    = Returned MAP_FAILED region_vm.
Proof.
  split.
  - apply (MapRegion_bad_size (K := linux_4k)). right. vm_compute. reflexivity.
  - apply (MapRegion_bad_size (K := linux_4k) (D := pool_decls 0 true)).
    left. simpl. lia.
Defined.

Lemma fresh_region_page_witness :
  ∃ m2, MarkPageReadWrite (state_4k 0) 12288 region_vm = Returned tt m2 ∧
        load m2 12300 = Some Byte.x00 ∧ no_access m2 16384.
Proof.
  destruct (fresh_region_page (K := linux_4k) (state_4k 0) ∅ 8192 region_vm 12288)
    as (m2 & Hret & Hin & Hout).
  - vm_compute; reflexivity.
  - unfold MAP_FAILED. lia.
  - reflexivity.
  - reflexivity.
  - lia.
  - vm_compute. discriminate.
  - exists m2. split_and!; [exact Hret | |].
    + apply Hin. vm_compute. split; [discriminate | reflexivity].
    + apply Hout; [simpl; lia|]. vm_compute. intros [_ Hlt]. discriminate.
Defined.

Lemma MarkPageReadWrite_keeps_contents_witness :
  pg_data <$> rw_vm !! 3 = pg_data <$> region_vm !! 3 ∧ read_write rw_vm 12300.
Proof.
  destruct (MarkPageReadWrite_keeps_contents (K := linux_4k) (state_4k 8192) 12288
              region_vm rw_vm) as [Hdata Hrw]; [vm_compute; reflexivity|].
  split; [apply Hdata | apply Hrw; simpl; lia].
Defined.

Lemma page_cycle_restores_witness :
  load dirty_vm 12300 = Some Byte.x41 ∧
  MarkPageInaccessible (state_4k 8192) 12288 dirty_vm = Returned tt region_vm.
Proof.
  split; [vm_compute; reflexivity|].
  apply (page_cycle_restores (K := linux_4k) (state_4k 8192) 12288 region_vm rw_vm
           [(12300, Byte.x41)] dirty_vm).
  - reflexivity.
  - lia.
  - vm_compute. discriminate.
  - vm_compute; reflexivity.
  - vm_compute; reflexivity.
  - repeat constructor; simpl; lia.
  - vm_compute; reflexivity.
Defined.

Lemma MarkPageReadWrite_unmapped_fatal_witness :
  UnmapRegion (state_4k 8192) region_vm = Returned tt ∅ ∧
  MarkPageReadWrite (state_4k 8192) 12288 ∅ = Fatal "mprotect".
Proof.
  split; [vm_compute; reflexivity|].
  apply (MarkPageReadWrite_unmapped_fatal (K := linux_4k) (state_4k 8192) 12288 ∅
           12300); [simpl; lia | reflexivity].
Defined.

Lemma UnmapRegion_unchecked_failure_witness :
  UnmapRegion (state_4k 8193) region_vm = Fatal "err == 0" ∧
  UnmapRegion (D := pool_decls 4 false) (state_4k 8193) region_vm
    = Returned tt region_vm.
Proof.
  assert (pages_base_addr (state_4k 8193) ≠ nullptr) as Hnn
    by (simpl; unfold nullptr; lia).
  split.
  - exact (UnmapRegion_unchecked_failure (K := linux_4k) (D := decls_16)
             (state_4k 8193) region_vm Hnn (or_introl eq_refl)).
  - exact (UnmapRegion_unchecked_failure (K := linux_4k) (D := pool_decls 4 false)
             (state_4k 8193) region_vm Hnn (or_introl eq_refl)).
Defined.

Lemma UnmapRegion_twice_witness :
  UnmapRegion (state_4k 8192) region_vm = Returned tt ∅ ∧
  UnmapRegion (state_4k 8192) ∅ = Returned tt ∅.
Proof.
  assert (UnmapRegion (state_4k 8192) region_vm = Returned tt ∅) as Hret
    by (vm_compute; reflexivity).
  split; [exact Hret|].
  exact (UnmapRegion_twice (K := linux_4k) (state_4k 8192) region_vm ∅ Hret).
Defined.

Lemma page_calls_commute_witness :
  ∃ m1' m2,
    MarkPageInaccessible (state_4k 8192) 12288 dirty_vm = Returned tt m1' ∧
    MarkPageReadWrite (state_4k 8192) 20480 m1' = Returned tt m2 ∧
    load m2 12300 = None ∧ load m2 20500 = Some Byte.x00.
Proof.
  pose (m1 := match MarkPageReadWrite (state_4k 8192) 20480 dirty_vm with
              | Returned _ m => m | Fatal _ => ∅ end).
  pose (m2 := match MarkPageInaccessible (state_4k 8192) 12288 m1 with
              | Returned _ m => m | Fatal _ => ∅ end).
  destruct (page_calls_commute (K := linux_4k) (state_4k 8192) 20480 12288
              dirty_vm m1 m2) as (m1' & Hna & Hrw).
  - reflexivity.
  - vm_compute. discriminate.
  - vm_compute; reflexivity.
  - vm_compute; reflexivity.
  - exists m1', m2. split_and!; [exact Hna | exact Hrw | |]; vm_compute; reflexivity.
Defined.

Lemma misaligned_pointer_witness :
  MarkPageReadWrite (state_4k 8192) 12289 region_vm = Fatal "mprotect" ∧
  MarkPageInaccessible (state_4k 8192) 12289 region_vm = Fatal "mmap" ∧
  MarkPageInaccessible (state_4k 8192) MAP_FAILED region_vm = Returned tt region_vm.
Proof.
  destruct (misaligned_pointer (K := linux_4k) (state_4k 8192) 12289 region_vm
              eq_refl) as (Hrw & Hna & _).
  destruct (misaligned_pointer (K := linux_4k) (state_4k 8192) MAP_FAILED region_vm
              eq_refl) as (_ & _ & Hquirk).
  split_and!; [exact Hrw | apply Hna; unfold MAP_FAILED; lia | by apply Hquirk].
Defined.

End MoreWitnesses.
